(** * redis_collections.lists: the Redis-backed [List]

    A shallow embedding of [src/redis_collections/lists.py].  The remote
    list is a [list] of byte strings, the write-back cache a finite map
    from Python integers to values, and every method is a function from
    the state of the collection to an outcome (a returned value or a raised
    exception) and the state it leaves behind. *)

From stdpp Require Import gmap strings list fin_maps.
From Stdlib Require Import ZArith Ascii BinaryString.

Local Open Scope Z_scope.

(** ** The remote list store *)

(** Modelled from the spec: the Redis server and its client library are
    not part of the repository.  The commands below are the store
    interface of §6 (length, index-get, index-set, range-get, trim,
    delete, push, pop, remove-first-matching) with the index conventions
    of the Redis list commands: a negative index counts from the tail,
    LRANGE and LTRIM take an inclusive end and clamp it, LSET rejects a
    position outside the list, RPUSH and LPUSH need at least one value.
    The server parses an index as a signed 64-bit integer and answers
    anything else with an error; the commands below give the replies to
    the indices it parses, and a property of a method that hands its
    caller's index to the store unchecked states that range
    ([store_accepts]). *)
Module Redis.

Definition bytes : Type := string.

Definition llen (l : list bytes) : Z := Z.of_nat (length l).

(** A signed index resolved against the length, not yet bounds-checked. *)
Definition resolve (n i : Z) : Z := if i <? 0 then n + i else i.

Definition in_range (n j : Z) : bool := (0 <=? j) && (j <? n).

Definition lindex (l : list bytes) (i : Z) : option bytes :=
  let j := resolve (llen l) i in
  if in_range (llen l) j then l !! Z.to_nat j else None.

(** [None] is the server's "index out of range" error reply. *)
Definition lset (l : list bytes) (i : Z) (x : bytes) : option (list bytes) :=
  let j := resolve (llen l) i in
  if in_range (llen l) j then Some (<[Z.to_nat j := x]> l) else None.

(** The sub-list addressed by an inclusive range, shared by LRANGE (which
    returns it) and LTRIM (which keeps it). *)
Definition range (l : list bytes) (first last : Z) : list bytes :=
  let n := llen l in
  let s := resolve n first in
  let e := resolve n last in
  let s := if s <? 0 then 0 else s in
  if (e <? s) || (n <=? s) then []
  else
    let e := if n <=? e then n - 1 else e in
    take (Z.to_nat (e - s + 1)) (drop (Z.to_nat s) l).

Definition lrange (l : list bytes) (first last : Z) : list bytes :=
  range l first last.

Definition ltrim (l : list bytes) (first last : Z) : list bytes :=
  range l first last.

(** Remove the first [k] elements equal to [x], scanning from the head. *)
Fixpoint remove_first (k : nat) (x : bytes) (l : list bytes) : list bytes :=
  match k, l with
  | O, _ => l
  | _, [] => []
  | S k', y :: l' =>
      if decide (y = x) then remove_first k' x l'
      else y :: remove_first k x l'
  end.

(** LREM: a positive count removes from the head, a negative one from the
    tail, zero removes every occurrence. *)
Definition lrem (l : list bytes) (count : Z) (x : bytes) : list bytes :=
  if 0 <? count then remove_first (Z.to_nat count) x l
  else if count <? 0 then
    reverse (remove_first (Z.to_nat (- count)) x (reverse l))
  else remove_first (length l) x l.

(** RPUSH: the new length and the new list; [None] is the server's
    "wrong number of arguments" error reply. *)
Definition rpush (l : list bytes) (xs : list bytes)
  : option (Z * list bytes) :=
  match xs with
  | [] => None
  | _ => Some (llen (l ++ xs), l ++ xs)
  end.

(** LPUSH pushes its values one after the other, so they end up
    reversed in front of the list. *)
Definition lpush (l : list bytes) (xs : list bytes)
  : option (Z * list bytes) :=
  match xs with
  | [] => None
  | _ => Some (llen (reverse xs ++ l), reverse xs ++ l)
  end.

Definition lpop (l : list bytes) : option (bytes * list bytes) :=
  match l with
  | [] => None
  | x :: l' => Some (x, l')
  end.

Definition rpop (l : list bytes) : option (bytes * list bytes) :=
  match reverse l with
  | [] => None
  | x :: l' => Some (x, reverse l')
  end.

(** DEL: a Redis list that does not exist is the empty list. *)
Definition delete (l : list bytes) : list bytes := [].

End Redis.

Abbreviation bytes := Redis.bytes.

(** ** Python values used by the methods *)

(** [slice(start, stop, step)]; an omitted field is [None]. *)
Record slice : Type := Slice {
  slice_start : option Z;
  slice_stop : option Z;
  slice_step : option Z
}.

(** The subscript of [l[index]]: an integer or a slice. *)
Inductive subscript : Type :=
| Int (i : Z)
| Slc (s : slice).

(** [x or d] on an optional integer: [None] and [0] are both falsy. *)
Definition py_or (x : option Z) (d : Z) : Z :=
  match x with
  | Some v => if v =? 0 then d else v
  | None => d
  end.

(** [enumerate(xs, start)]. *)
Fixpoint enumerate {A : Type} (start : Z) (xs : list A) : list (Z * A) :=
  match xs with
  | [] => []
  | x :: xs' => (start, x) :: enumerate (start + 1) xs'
  end.

(** [itertools.islice(xs, None, None, step)] for a positive [step] up to
    [sys.maxsize]: the elements at positions 0, step, 2*step, ...; [skip]
    counts the elements still to drop before the next one is kept. *)
Fixpoint islice_from {A : Type} (skip step : nat) (xs : list A) : list A :=
  match xs with
  | [] => []
  | x :: xs' =>
      match skip with
      | O => x :: islice_from (step - 1) step xs'
      | S skip' => islice_from skip' step xs'
      end
  end.

Definition islice {A : Type} (xs : list A) (step : Z) : list A :=
  islice_from 0 (Z.to_nat step) xs.

(** A dict comprehension [{f(i): v for i, v in d.items() if ...}], and the
    loops of the source that fill a fresh dict the same way: [f i] is the
    new key of the entry at [i], or [None] when the entry is dropped.  The
    source only uses re-keyings that send distinct kept keys to distinct
    keys. *)
Definition rekey {A : Type} (f : Z → option Z) : Z * A → option (Z * A) :=
  λ '(i, v), (λ j, (j, v)) <$> f i.

Definition dict_comp {A : Type} (f : Z → option Z) (d : gmap Z A)
  : gmap Z A :=
  list_to_map (omap (rekey f) (map_to_list d)).

(** ** Exceptions and outcomes *)

Inductive exn : Type :=
| IndexError
| ValueError
| NotImplementedError
| ResponseError
| TypeError.

Inductive outcome (A : Type) : Type :=
| Return (a : A)
| Raise (e : exn).

Arguments Return {A} a.
Arguments Raise {A} e.

(** The two ways a pipeline runs a command: at once (while watching, before
    [multi()]), or queued until [execute()] (after [multi()], or in a
    pipeline that watches nothing). *)
Inductive pipe_mode : Type := Immediate | Buffered.

(** ** The state of one [List] instance *)

Record List (V : Type) : Type := mkList {
  remote : list bytes;
  writeback : bool;
  cache : gmap Z V;
  marker : bytes
}.

Arguments mkList {V} remote writeback cache marker.
Arguments remote {V} _.
Arguments writeback {V} _.
Arguments cache {V} _.
Arguments marker {V} _.

Definition set_remote {V : Type} (l : list bytes) (st : List V) : List V :=
  mkList l (writeback st) (cache st) (marker st).

Definition set_cache {V : Type} (c : gmap Z V) (st : List V) : List V :=
  mkList (remote st) (writeback st) c (marker st).

Definition set_writeback {V : Type} (b : bool) (st : List V) : List V :=
  mkList (remote st) b (cache st) (marker st).

(** A method: from the state before to the outcome and the state after. *)
Definition M (V A : Type) : Type := List V → outcome A * List V.

Definition ret {V A : Type} (a : A) : M V A := λ st, (Return a, st).

Definition raise {V A : Type} (e : exn) : M V A := λ st, (Raise e, st).

Definition bind {V A B : Type} (m : M V A) (k : A → M V B) : M V B :=
  λ st,
    match m st with
    | (Return a, st') => k a st'
    | (Raise e, st') => (Raise e, st')
    end.

Declare Scope method_scope.
Delimit Scope method_scope with M.

Notation "'let*' x := m 'in' k" := (bind m (λ x, k))
  (at level 10, x pattern, m at level 200, k at level 200,
   only parsing) : method_scope.

Notation "'do' m 'in' k" := (bind m (λ _, k))
  (at level 10, m at level 200, k at level 200,
   only parsing) : method_scope.

Local Open Scope method_scope.

(** Reading and writing the fields of [self]. *)
Definition get_cache {V : Type} : M V (gmap Z V) :=
  λ st, (Return (cache st), st).

Definition put_cache {V : Type} (c : gmap Z V) : M V unit :=
  λ st, (Return tt, set_cache c st).

Definition get_writeback {V : Type} : M V bool :=
  λ st, (Return (writeback st), st).

Definition get_marker {V : Type} : M V bytes :=
  λ st, (Return (marker st), st).

(** ** Commands sent through the client or a pipeline

    [pipe.llen(self.key)], [self.redis.lpop(self.key)], ...: each command
    of [Redis] run against the remote list of the instance. *)
Module Pipe.

Definition llen {V : Type} : M V Z :=
  λ st, (Return (Redis.llen (remote st)), st).

Definition lindex {V : Type} (i : Z) : M V (option bytes) :=
  λ st, (Return (Redis.lindex (remote st) i), st).

(** LSET.  Run at once, a rejected LSET raises [ResponseError] on the
    spot.  Queued, it is skipped when the batch runs and the batch goes
    on; the returned flag tells whether it was accepted, for [execute]
    to raise at the end. *)
Definition lset {V : Type} (mode : pipe_mode) (i : Z) (x : bytes)
  : M V bool :=
  λ st,
    match Redis.lset (remote st) i x, mode with
    | Some l, _ => (Return true, set_remote l st)
    | None, Immediate => (Raise ResponseError, st)
    | None, Buffered => (Return false, st)
    end.

Definition lrange {V : Type} (first last : Z) : M V (list bytes) :=
  λ st, (Return (Redis.lrange (remote st) first last), st).

Definition ltrim {V : Type} (first last : Z) : M V unit :=
  λ st, (Return tt, set_remote (Redis.ltrim (remote st) first last) st).

Definition delete {V : Type} : M V unit :=
  λ st, (Return tt, set_remote (Redis.delete (remote st)) st).

Definition lrem {V : Type} (count : Z) (x : bytes) : M V unit :=
  λ st, (Return tt, set_remote (Redis.lrem (remote st) count x) st).

Definition rpush {V : Type} (xs : list bytes) : M V Z :=
  λ st,
    match Redis.rpush (remote st) xs with
    | Some (n, l) => (Return n, set_remote l st)
    | None => (Raise ResponseError, st)
    end.

Definition lpush {V : Type} (xs : list bytes) : M V Z :=
  λ st,
    match Redis.lpush (remote st) xs with
    | Some (n, l) => (Return n, set_remote l st)
    | None => (Raise ResponseError, st)
    end.

Definition lpop {V : Type} : M V (option bytes) :=
  λ st,
    match Redis.lpop (remote st) with
    | Some (x, l) => (Return (Some x), set_remote l st)
    | None => (Return None, st)
    end.

Definition rpop {V : Type} : M V (option bytes) :=
  λ st,
    match Redis.rpop (remote st) with
    | Some (x, l) => (Return (Some x), set_remote l st)
    | None => (Return None, st)
    end.

(** [pipe.execute()] on a queued batch: raises when a queued command was
    rejected ([ok] is the conjunction of the flags of the batch). *)
Definition execute {V : Type} (ok : bool) : M V unit :=
  if ok then ret tt else raise ResponseError.

End Pipe.

(** Modelled from the spec: [RedisCollection._transaction] lives in
    [base.py], which is not among the sources.  §4.4: the body runs against
    a consistent snapshot and is re-run when the snapshot went stale; with
    the one client modelled here it never does, so the body runs once and
    its result is returned. *)
Definition _transaction {V A : Type} (fn : M V A) : M V A := fn.

(** ** The methods of [List] *)

Section Methods.

Context {V : Type} `{EqDecision V}.

(** Modelled from the spec: [_pickle] and [_unpickle] are inherited from
    [base.py], which is not among the sources; they are the serialization
    port of §6, taken here as parameters. *)
Variable pickle : V → bytes.
Variable unpickle : bytes → V.

(** [self._unpickle(x)] where [x] is the reply of LINDEX or RPOP: [None]
    is not a byte string.  Every call site has checked the bounds first,
    so that branch is never taken there. *)
Definition unpickle_reply (x : option bytes) : M V V :=
  match x with
  | Some b => ret (unpickle b)
  | None => raise TypeError
  end.

Definition _normalize_index (index : Z) : M V (Z * Z) :=
  let* len_self := Pipe.llen in
  let positive_index := if 0 <=? index then index else len_self + index in
  ret (len_self, positive_index).

Definition _normalize_slice (index : slice)
  : M V (Z * Z * Z * bool * Z) :=
  if decide (slice_step index = Some 0) then raise ValueError
  else
    let* len_self := Pipe.llen in
    let step := py_or (slice_step index) 1 in
    let forward := 0 <? step in
    let step := Z.abs step in
    let start :=
      match slice_start index with
      | None => if forward then 0 else len_self - 1
      | Some s =>
          if s <? 0 then Z.max (len_self + s) 0 else Z.min s len_self
      end in
    let stop :=
      match slice_stop index with
      | None => if forward then len_self else -1
      | Some s =>
          if s <? 0 then Z.max (len_self + s) 0 else Z.min s len_self
      end in
    let '(start, stop) :=
      if forward then (start, stop)
      else (Z.min (stop + 1) len_self, Z.min (start + 1) len_self) in
    ret (start, stop, step, forward, len_self).

Definition _pop_left : M V V :=
  let* pickled_value := Pipe.lpop in
  match pickled_value with
  | None => raise IndexError
  | Some p =>
      let* c := get_cache in
      let value := default (unpickle p) (c !! 0) in
      let* wb := get_writeback in
      do (if wb
          then put_cache
                 (dict_comp (λ i, if i =? 0 then None else Some (i - 1)) c)
          else ret tt) in
      ret value
  end.

Definition _pop_right : M V V :=
  _transaction (
    let* (len_self, cache_index) := _normalize_index (-1) in
    if len_self =? 0 then raise IndexError
    else
      let* pickled_value := Pipe.rpop in
      let* value := unpickle_reply pickled_value in
      let* wb := get_writeback in
      if wb then
        let* c := get_cache in
        let value := default value (c !! cache_index) in
        do put_cache
             (dict_comp (λ i, if i =? cache_index then None else Some i) c) in
        ret value
      else ret value).

(** The re-keying loop of [pop_middle_trans]. *)
Definition drop_key (cache_index : Z) (i : Z) : option Z :=
  if i <? cache_index then Some i
  else if cache_index <? i then Some (i - 1)
  else None.

(** After [pipe.multi()] the LSET and the LREM are queued and run when
    the transaction commits; the cache is private to the instance, so
    running them where they are issued leaves the same state. *)
Definition _pop_middle (index : Z) : M V V :=
  _transaction (
    let* (len_self, cache_index) := _normalize_index index in
    if (cache_index <? 0) || (len_self <=? cache_index)
    then raise IndexError
    else
      let* pickled_value := Pipe.lindex index in
      let* value := unpickle_reply pickled_value in
      let* m := get_marker in
      let* ok := Pipe.lset Buffered index m in
      do Pipe.lrem 1 m in
      let* wb := get_writeback in
      let* value :=
        (if wb then
           let* c := get_cache in
           let value := default value (c !! cache_index) in
           do put_cache (dict_comp (drop_key cache_index) c) in
           ret value
         else ret value) in
      do Pipe.execute ok in
      ret value).

(** [for i, v in six.iteritems(self.cache): pipe.lset(self.key, i, ...)]
    over the entries in the order the map enumerates them; the flag is
    the conjunction of the flags of the LSETs.  The keys are distinct, so
    the order only shows in the remote list that a flush run at once
    leaves behind when it stops at a rejected LSET; no property below
    depends on it. *)
Fixpoint lset_each (mode : pipe_mode) (items : list (Z * V)) : M V bool :=
  match items with
  | [] => ret true
  | (i, v) :: rest =>
      let* ok := Pipe.lset mode i (pickle v) in
      let* ok' := lset_each mode rest in
      ret (ok && ok')
  end.

Definition _sync_helper (mode : pipe_mode) : M V bool :=
  let* c := get_cache in
  let* ok := lset_each mode (map_to_list c) in
  do put_cache ∅ in
  ret ok.

Definition sync : M V unit :=
  _transaction (
    let* ok := _sync_helper Buffered in
    Pipe.execute ok).

Definition clear : M V unit :=
  do Pipe.delete in
  let* wb := get_writeback in
  if wb then put_cache ∅ else ret tt.

Definition _del_slice (index : slice) : M V unit :=
  if decide (slice_step index = None) then
    _transaction (
      let* (start, stop, step, forward, len_self) :=
        _normalize_slice index in
      if start =? stop then ret tt
      else
        let* wb := get_writeback in
        do (if wb then do _sync_helper Immediate in ret tt else ret tt) in
        if (start =? 0) && (stop =? len_self) then clear
        else if (start =? 0) && negb (stop =? len_self) then
          Pipe.ltrim (stop + 1) (-1)
        else if negb (start =? 0) && (stop =? len_self) then
          Pipe.ltrim 0 (start - 1)
        else
          let* left_values := Pipe.lrange 0 (Z.max (start - 2) 0) in
          let* right_values := Pipe.lrange (stop + 1) (-1) in
          do Pipe.delete in
          do Pipe.rpush (left_values ++ right_values) in
          ret tt)
  else raise NotImplementedError.

Definition pop (index : Z) : M V V :=
  if index =? 0 then _pop_left
  else if index =? -1 then _pop_right
  else _pop_middle index.

Definition __delitem__ (index : subscript) : M V unit :=
  match index with
  | Slc s => _del_slice s
  | Int i =>
      if i =? 0 then do _pop_left in ret tt
      else if i =? -1 then do _pop_right in ret tt
      else do _pop_middle i in ret tt
  end.

(** [self.cache.get(i, self._unpickle(v))] over [enumerate(vs, start)]. *)
Definition overlay (c : gmap Z V) (start : Z) (vs : list bytes) : list V :=
  (λ '(i, v), default (unpickle v) (c !! i)) <$> enumerate start vs.

Definition _get_slice (index : slice) : M V (list V) :=
  _transaction (
    let* (start, stop, step, forward, len_self) :=
      _normalize_slice index in
    if start =? stop then ret []
    else
      let* redis_values := Pipe.lrange start (Z.max (stop - 1) 0) in
      let* c := get_cache in
      let ret_ := overlay c start redis_values in
      let ret_ := if forward then ret_ else reverse ret_ in
      let ret_ := if step =? 1 then ret_ else islice ret_ step in
      ret ret_).

(** [__getitem__] for an integer subscript; a slice subscript goes to
    [_get_slice]. *)
Definition __getitem__ (index : Z) : M V V :=
  let* wb := get_writeback in
  if negb wb then
    let* pickled_value := Pipe.lindex index in
    match pickled_value with
    | None => raise IndexError
    | Some p => ret (unpickle p)
    end
  else
    _transaction (
      let* (len_self, cache_index) := _normalize_index index in
      if (cache_index <? 0) || (len_self <=? cache_index)
      then raise IndexError
      else
        let* c := get_cache in
        match c !! cache_index with
        | Some v => ret v
        | None =>
            let* pickled_value := Pipe.lindex index in
            let* value := unpickle_reply pickled_value in
            do put_cache (<[cache_index := value]> c) in
            ret value
        end).

Definition _data : M V (list V) :=
  let* vs := Pipe.lrange 0 (-1) in
  ret (unpickle <$> vs).

Definition __iter__ : M V (list V) :=
  let* data := _data in
  let* c := get_cache in
  ret ((λ '(i, v), default v (c !! i)) <$> enumerate 0 data).

Definition __len__ : M V Z := Pipe.llen.

Definition __reversed__ : M V (list V) :=
  let* vs := __iter__ in
  ret (reverse vs).

Definition _set_slice (index : slice) (value : list V) : M V unit :=
  if decide (slice_step index = None) then
    _transaction (
      let* (start, stop, step, forward, len_self) :=
        _normalize_slice index in
      let* wb := get_writeback in
      do (if wb then do _sync_helper Immediate in ret tt else ret tt) in
      let* left_values :=
        (if start =? 0 then ret [] else Pipe.lrange 0 (start - 1)) in
      let middle_values := pickle <$> value in
      let* right_values :=
        (if stop =? len_self then ret [] else Pipe.lrange stop (-1)) in
      do Pipe.delete in
      do Pipe.rpush (left_values ++ middle_values ++ right_values) in
      ret tt)
  else raise NotImplementedError.

(** [__setitem__] for an integer subscript; a slice subscript goes to
    [_set_slice].  The pipeline watches nothing, so the LSET is queued
    and [execute()] reports its rejection, which the method turns into
    [IndexError] before it touches the cache. *)
Definition __setitem__ (index : Z) (value : V) : M V unit :=
  let* wb := get_writeback in
  let* cache_index :=
    (if wb then let* (_, ci) := _normalize_index index in ret ci
     else ret 0) in
  let* ok := Pipe.lset Buffered index (pickle value) in
  if negb ok then raise IndexError
  else if wb then
    let* c := get_cache in
    put_cache (<[cache_index := value]> c)
  else ret tt.

Definition append (value : V) : M V unit :=
  let* len_self := Pipe.rpush [pickle value] in
  let* wb := get_writeback in
  if wb then
    let* c := get_cache in
    put_cache (<[len_self - 1 := value]> c)
  else ret tt.

Definition count (value : V) : M V Z :=
  let* vs := __iter__ in
  ret (Z.of_nat (length (filter (λ v, v = value) vs))).

(** The re-keying loop of [insert_middle_trans]. *)
Definition shift_key (cache_index : Z) (i : Z) : option Z :=
  if i <? cache_index then Some i
  else if cache_index <=? i then Some (i + 1)
  else None.

Definition insert (index : Z) (value : V) : M V unit :=
  if index =? 0 then
    do Pipe.lpush [pickle value] in
    let* wb := get_writeback in
    if wb then
      let* c := get_cache in
      put_cache (<[0 := value]> (dict_comp (λ k, Some (k + 1)) c))
    else ret tt
  else if index =? -1 then
    let* len_self := Pipe.rpush [pickle value] in
    let* wb := get_writeback in
    if wb then
      let cache_index := if 0 <=? index then index else len_self + index in
      let* c := get_cache in
      put_cache (<[cache_index := value]> c)
    else ret tt
  else
    _transaction (
      let* (_, cache_index) := _normalize_index index in
      let* right_values := Pipe.lrange cache_index (-1) in
      do Pipe.ltrim 0 (cache_index - 1) in
      do Pipe.rpush (pickle value :: right_values) in
      let* wb := get_writeback in
      if wb then
        let* c := get_cache in
        put_cache
          (<[cache_index := value]> (dict_comp (shift_key cache_index) c))
      else ret tt).

(** [for i, v in enumerate(values, start): self.cache[i] = v]. *)
Definition cache_all (start : Z) (values : list V) (c : gmap Z V)
  : gmap Z V :=
  foldl (λ c '(i, v), <[i := v]> c) c (enumerate start values).

(** [extend] with a plain sequence ([use_redis] is false). *)
Definition extend (other : list V) : M V unit :=
  _transaction (
    let values := other in
    let* len_self := Pipe.rpush (pickle <$> values) in
    let* wb := get_writeback in
    if wb then
      let* c := get_cache in
      put_cache
        (cache_all (len_self - Z.of_nat (length values)) values c)
    else ret tt).

(** [extend] with another Redis-backed list ([use_redis] is true): its
    elements are read through its own [__iter__] inside the transaction. *)
Definition extend_redis (other : List V) : M V unit :=
  match __iter__ other with
  | (Return values, _) => extend values
  | (Raise e, _) => raise e
  end.

(** The scan of [index_trans] over [enumerate(self.__iter__())]. *)
Fixpoint index_scan (value : V) (normal_start normal_stop : Z)
    (items : list (Z * V)) : option Z :=
  match items with
  | [] => None
  | (i, v) :: rest =>
      if decide (v = value) then
        if i <? normal_start
        then index_scan value normal_start normal_stop rest
        else if normal_stop <=? i then None
        else Some i
      else index_scan value normal_start normal_stop rest
  end.

Definition index (value : V) (start stop : option Z) : M V Z :=
  _transaction (
    let* (len_self, normal_start) := _normalize_index (py_or start 0) in
    let* (_, normal_stop) := _normalize_index (py_or stop len_self) in
    let* vs := __iter__ in
    match index_scan value normal_start normal_stop (enumerate 0 vs) with
    | Some i => ret i
    | None => raise ValueError
    end).

(** The pipeline of [remove] watches nothing: the LSETs of the flush and
    the LREM are queued and run together by [execute()]. *)
Definition remove (value : V) : M V unit :=
  let* wb := get_writeback in
  let* ok := (if wb then _sync_helper Buffered else ret true) in
  do Pipe.lrem 1 (pickle value) in
  Pipe.execute ok.

(** The swap loop of [reverse_trans] over [xrange(n // 2)]. *)
Fixpoint reverse_loop (n : Z) (indices : list Z) : M V unit :=
  match indices with
  | [] => ret tt
  | i :: rest =>
      let* left_value := Pipe.lindex i in
      let* right_value := Pipe.lindex (n - i - 1) in
      match left_value, right_value with
      | Some l, Some r =>
          do Pipe.lset Immediate i r in
          do Pipe.lset Immediate (n - i - 1) l in
          reverse_loop n rest
      | _, _ => raise TypeError
      end
  end.

Definition reverse_ : M V unit :=
  _transaction (
    let* n := Pipe.llen in
    reverse_loop n (seqZ 0 (n `div` 2))).

Definition __enter__ : M V unit :=
  λ st, (Return tt, set_writeback true st).

Definition __exit__ : M V unit := sync.

End Methods.

(** ** Two serialization codecs to run the methods on

    A tagged copy for strings and a tagged binary numeral for integers;
    both satisfy [unpickle (pickle v) = v]. *)
Module Codec.

Definition pickle_str (s : string) : bytes := String "S"%char s.

Definition unpickle_str (b : bytes) : string :=
  match b with
  | String _ s => s
  | EmptyString => EmptyString
  end.

Definition pickle_int (z : Z) : bytes :=
  String "I"%char (BinaryString.of_Z z).

Definition unpickle_int (b : bytes) : Z :=
  match b with
  | String _ s => BinaryString.to_Z s
  | EmptyString => 0
  end.

End Codec.

(** A list of strings as [List(data)] leaves it: the pickled values in the
    remote list, nothing cached. *)
Definition str_list (wb : bool) (data : list string) : List string :=
  mkList (Codec.pickle_str <$> data) wb ∅ "3f2b9c0a6d1e4f58a7b3c2d1e0f9a8b7".

Definition int_list (wb : bool) (data : list Z) : List Z :=
  mkList (Codec.pickle_int <$> data) wb ∅ "3f2b9c0a6d1e4f58a7b3c2d1e0f9a8b7".

(** A write-back list over three stored values with positions 0 and 2
    cached and position 1 not. *)
Definition cached_list : List string :=
  mkList (Codec.pickle_str <$> ["x"; "x"; "x"]) true
    {[0 := "a"; 2 := "c"]} "3f2b9c0a6d1e4f58a7b3c2d1e0f9a8b7".

(** ** Notions used to state the properties *)

(** The absolute position a signed index denotes in a list of length [n]
    (§4.1); it is in range when it lies in [[0, n)]. *)
Definition absolute (n index : Z) : Z :=
  if 0 <=? index then index else n + index.

(** The value a read of absolute position [i] sees: the cached value of
    [i] when the cache has one, the unpickled stored element otherwise;
    nothing outside the list. *)
Definition effective {V : Type} (unpickle : bytes → V) (st : List V) (i : Z)
  : option V :=
  if i <? 0 then None
  else (λ x, default (unpickle x) (cache st !! i)) <$> remote st !! Z.to_nat i.

(** [sys.maxsize] of CPython on a 64-bit platform, the largest step
    [itertools.islice] takes. *)
Definition sys_maxsize : Z := 2 ^ 63 - 1.

(** The slice normalizer in the words of the specification (§4.2), to
    compare [_normalize_slice] with: the direction and the magnitude of
    the step (an omitted step is 1), the clamping of a given bound, the
    direction-aware default of an omitted one, and the remap of a backward
    slice to a forward half-open range. *)
Module SliceSpec.

Definition forward (index : slice) : bool := 0 <? default 1 (slice_step index).

Definition step_magnitude (index : slice) : Z :=
  Z.abs (default 1 (slice_step index)).

Definition clamp (n : Z) (bound : option Z) (unspecified : Z) : Z :=
  match bound with
  | None => unspecified
  | Some b => if b <? 0 then Z.max (n + b) 0 else Z.min b n
  end.

Definition given_start (n : Z) (index : slice) : Z :=
  clamp n (slice_start index) (if forward index then 0 else n - 1).

Definition given_stop (n : Z) (index : slice) : Z :=
  clamp n (slice_stop index) (if forward index then n else -1).

Definition start (n : Z) (index : slice) : Z :=
  if forward index then given_start n index
  else Z.min (given_stop n index + 1) n.

Definition stop (n : Z) (index : slice) : Z :=
  if forward index then given_stop n index
  else Z.min (given_start n index + 1) n.

End SliceSpec.

(** The integers the server parses as an index: a signed 64-bit value.
    An index outside this range is answered with an error reply; the
    commands of [Redis] describe the replies to the indices inside it. *)
Definition store_accepts (z : Z) : Prop := - 2 ^ 63 ≤ z < 2 ^ 63.

(** The data-model invariant of the write-back cache (§3): every key is a
    valid absolute index into the remote list. *)
Definition wf_cache {V : Type} (st : List V) : Prop :=
  ∀ i, is_Some (cache st !! i) → 0 ≤ i < Redis.llen (remote st).

(** The state of the cache between two calls: well-formed, and empty as
    long as write-back is off (the methods only write to the cache under
    [if self.writeback]). *)
Definition cache_ok {V : Type} (st : List V) : Prop :=
  wf_cache st ∧ (writeback st = false → cache st = ∅).

(** The absolute position at which [insert] puts the value: the head for
    index 0, the tail for index -1 (the method pushes to the tail there),
    the resolved index otherwise. *)
Definition insert_position (n index : Z) : Z :=
  if index =? 0 then 0
  else if index =? -1 then n
  else absolute n index.

(** A method raises only exceptions in [P], whatever the state it starts
    from. *)
Definition raises_only {V A : Type} (P : exn → Prop) (m : M V A) : Prop :=
  ∀ st e, fst (m st) = Raise e → P e.

(** A method that touches nothing but the remote list. *)
Definition remote_only {V A : Type} (m : M V A) : Prop :=
  ∀ st, ∃ l', snd (m st) = set_remote l' st.

(** * Properties *)

(** ** Dict comprehensions *)

Section DictComp.

Context {A : Type}.
Variable f : Z → option Z.

(** Distinct kept keys get distinct new keys. *)
Hypothesis f_inj : ∀ i i' k, f i = Some k → f i' = Some k → i = i'.

Lemma rekey_NoDup (l : list (Z * A)) :
  NoDup l.*1 → NoDup (omap (rekey f) l).*1.
Proof using f_inj.
  induction l as [|[i v] l IH]; simpl; [constructor|].
  intros Hnd. apply NoDup_cons in Hnd as [Hi Hnd].
  destruct (f i) as [k|] eqn:Hfi; simpl; [|by apply IH].
  apply NoDup_cons. split; [|by apply IH].
  intros Hk. apply list_elem_of_fmap in Hk as [[k' v'] [-> Hin]].
  apply list_elem_of_omap in Hin as [[i' w] [Hin Hre]].
  simpl in Hre. destruct (f i') as [k''|] eqn:Hfi'; simplify_eq/=.
  assert (i = i') as -> by eauto.
  apply Hi. apply list_elem_of_fmap. eexists. split; [|exact Hin]. done.
Qed.

Lemma lookup_dict_comp (d : gmap Z A) (j : Z) (v : A) :
  dict_comp f d !! j = Some v ↔ ∃ i, f i = Some j ∧ d !! i = Some v.
Proof using f_inj.
  unfold dict_comp.
  rewrite <- elem_of_list_to_map
    by (apply rekey_NoDup, NoDup_fst_map_to_list).
  rewrite list_elem_of_omap. split.
  - intros [[i w] [Hin Hre]]. apply elem_of_map_to_list in Hin.
    simpl in Hre. destruct (f i) eqn:Hfi; simplify_eq/=. eauto.
  - intros (i & Hfi & Hd). exists (i, v). split.
    + by apply elem_of_map_to_list.
    + simpl. by rewrite Hfi.
Qed.

Lemma lookup_dict_comp_None (d : gmap Z A) (j : Z) :
  dict_comp f d !! j = None ↔ ∀ i, f i = Some j → d !! i = None.
Proof using f_inj.
  rewrite eq_None_not_Some. split.
  - intros Hn i Hfi. apply eq_None_not_Some. intros [v Hv].
    apply Hn. exists v. apply lookup_dict_comp. eauto.
  - intros Hn [v Hv]. apply lookup_dict_comp in Hv as (i & Hfi & Hd).
    rewrite (Hn i Hfi) in Hd. discriminate.
Qed.

End DictComp.

(** ** The store commands *)

Lemma resolve_normalize (n i : Z) :
  Redis.resolve n i = if 0 <=? i then i else n + i.
Proof. unfold Redis.resolve. repeat case_match; lia. Qed.

Lemma in_range_true (n j : Z) : Redis.in_range n j = true ↔ 0 ≤ j < n.
Proof. unfold Redis.in_range. rewrite andb_true_iff. lia. Qed.

Lemma in_range_false (n j : Z) : Redis.in_range n j = false ↔ ¬ 0 ≤ j < n.
Proof. rewrite <- in_range_true. destruct (Redis.in_range n j); naive_solver. Qed.

Lemma lindex_in_range (l : list bytes) (i : Z) :
  0 ≤ Redis.resolve (Redis.llen l) i < Redis.llen l →
  ∃ x, Redis.lindex l i = Some x ∧
       l !! Z.to_nat (Redis.resolve (Redis.llen l) i) = Some x.
Proof.
  intros Hr. unfold Redis.lindex.
  rewrite (proj2 (in_range_true _ _) Hr).
  destruct (lookup_lt_is_Some_2 l (Z.to_nat (Redis.resolve (Redis.llen l) i)))
    as [x Hx]; [unfold Redis.llen in *; lia|].
  eauto.
Qed.

Lemma lindex_out_of_range (l : list bytes) (i : Z) :
  ¬ 0 ≤ Redis.resolve (Redis.llen l) i < Redis.llen l →
  Redis.lindex l i = None.
Proof.
  intros Hr. unfold Redis.lindex.
  by rewrite (proj2 (in_range_false _ _) Hr).
Qed.

Lemma lset_in_range (l : list bytes) (i : Z) (x : bytes) :
  0 ≤ Redis.resolve (Redis.llen l) i < Redis.llen l →
  Redis.lset l i x
  = Some (<[Z.to_nat (Redis.resolve (Redis.llen l) i) := x]> l).
Proof.
  intros Hr. unfold Redis.lset.
  by rewrite (proj2 (in_range_true _ _) Hr).
Qed.

Lemma lset_out_of_range (l : list bytes) (i : Z) (x : bytes) :
  ¬ 0 ≤ Redis.resolve (Redis.llen l) i < Redis.llen l →
  Redis.lset l i x = None.
Proof.
  intros Hr. unfold Redis.lset.
  by rewrite (proj2 (in_range_false _ _) Hr).
Qed.

Lemma llen_lset (l l' : list bytes) (i : Z) (x : bytes) :
  Redis.lset l i x = Some l' → Redis.llen l' = Redis.llen l.
Proof.
  unfold Redis.lset. case_match; [|done]. intros [= <-].
  unfold Redis.llen. by rewrite length_insert.
Qed.

Lemma remove_first_0 (x : bytes) (l : list bytes) :
  Redis.remove_first 0 x l = l.
Proof. by destruct l. Qed.

(** Overwriting position [p] with a value that occurs nowhere else and
    then removing the first occurrence of that value deletes position [p]. *)
Lemma remove_first_insert (l : list bytes) (p : nat) (m : bytes) :
  (p < length l)%nat → m ∉ l →
  Redis.remove_first 1 m (<[p := m]> l) = delete p l.
Proof.
  revert p. induction l as [|y l IH]; intros p Hp Hm; simpl in *; [lia|].
  apply not_elem_of_cons in Hm as [Hy Hm].
  destruct p as [|p]; simpl.
  - rewrite decide_True by done. apply remove_first_0.
  - rewrite decide_False by done. f_equal. apply IH; [lia|done].
Qed.

Lemma range_nonneg (l : list bytes) (s e : Z) :
  0 ≤ s → 0 ≤ e →
  Redis.range l s e = take (Z.to_nat (e - s + 1)) (drop (Z.to_nat s) l).
Proof.
  intros Hs He. unfold Redis.range, Redis.resolve, Redis.llen.
  replace (s <? 0) with false by lia. replace (e <? 0) with false by lia.
  replace (s <? 0) with false by lia.
  destruct ((e <? s) || _) eqn:Hc.
  - apply orb_true_iff in Hc as [Hc|Hc].
    + by replace (Z.to_nat (e - s + 1)) with 0%nat by lia.
    + rewrite drop_ge by lia. by rewrite take_nil.
  - apply orb_false_iff in Hc as [Hc1 Hc2]. case_match; [|done].
    rewrite !take_ge; [done|rewrite length_drop; lia..].
Qed.

Lemma range_to_end (l : list bytes) (s : Z) :
  0 ≤ s → Redis.range l s (-1) = drop (Z.to_nat s) l.
Proof.
  intros Hs. unfold Redis.range, Redis.resolve, Redis.llen.
  replace (s <? 0) with false by lia. cbn [Z.ltb Z.compare].
  replace (s <? 0) with false by lia.
  destruct ((_ <? s) || _) eqn:Hc.
  - apply orb_true_iff in Hc. rewrite drop_ge; [done|lia].
  - apply orb_false_iff in Hc as [Hc1 Hc2].
    replace (_ <=? _) with false by lia.
    rewrite take_ge; [done|rewrite length_drop; lia].
Qed.

Lemma range_all (l : list bytes) : Redis.range l 0 (-1) = l.
Proof. by rewrite range_to_end. Qed.

(** ** The re-keyings of the cache are injective on the keys they keep *)

Lemma succ_key_inj (i i' k : Z) :
  Some (i + 1) = Some k → Some (i' + 1) = Some k → i = i'.
Proof. intros [= <-] [= ?]. lia. Qed.

Lemma shift_key_inj (ci i i' k : Z) :
  shift_key ci i = Some k → shift_key ci i' = Some k → i = i'.
Proof. unfold shift_key. repeat case_match; intros [= <-] [= ?]; lia. Qed.

Lemma drop_key_inj (ci i i' k : Z) :
  drop_key ci i = Some k → drop_key ci i' = Some k → i = i'.
Proof.
  unfold drop_key. repeat case_match; try done; intros [= <-] [= ?]; lia.
Qed.

Lemma pop_left_key_inj (i i' k : Z) :
  (if i =? 0 then None else Some (i - 1)) = Some k →
  (if i' =? 0 then None else Some (i' - 1)) = Some k → i = i'.
Proof. repeat case_match; try done; intros [= <-] [= ?]; lia. Qed.

Lemma pop_right_key_inj (ci i i' k : Z) :
  (if i =? ci then None else Some i) = Some k →
  (if i' =? ci then None else Some i') = Some k → i = i'.
Proof. repeat case_match; try done; intros [= <-] [= ?]; lia. Qed.

(** ** What each re-keying does to a lookup *)

Lemma lookup_dict_comp_pop_left {A} (c : gmap Z A) (j : Z) :
  dict_comp (λ i, if i =? 0 then None else Some (i - 1)) c !! j
  = if j =? -1 then None else c !! (j + 1).
Proof.
  apply option_eq. intros v.
  rewrite lookup_dict_comp by apply pop_left_key_inj. split.
  - intros (i & Hi & Hv). destruct (i =? 0) eqn:?; [done|].
    injection Hi as <-. rewrite Z.sub_add.
    by replace (i - 1 =? -1) with false by lia.
  - destruct (j =? -1) eqn:?; [done|]. intros Hv. exists (j + 1).
    replace (j + 1 =? 0) with false by lia. split; [f_equal; lia|done].
Qed.

Lemma lookup_dict_comp_succ {A} (c : gmap Z A) (j : Z) :
  dict_comp (λ k, Some (k + 1)) c !! j = c !! (j - 1).
Proof.
  apply option_eq. intros v.
  rewrite lookup_dict_comp by apply succ_key_inj. split.
  - intros (i & [= <-] & Hv). by rewrite Z.add_simpl_r.
  - intros Hv. exists (j - 1). split; [f_equal; lia|done].
Qed.

Lemma dict_comp_pop_right {A} (ci : Z) (c : gmap Z A) :
  dict_comp (λ i, if i =? ci then None else Some i) c = delete ci c.
Proof.
  apply map_eq. intros j. apply option_eq. intros v.
  rewrite lookup_dict_comp by apply pop_right_key_inj.
  rewrite lookup_delete_Some. split.
  - intros (i & Hi & Hv). destruct (i =? ci) eqn:?; [done|].
    injection Hi as <-. split; [lia|done].
  - intros [Hne Hv]. exists j. by replace (j =? ci) with false by lia.
Qed.

Lemma lookup_dict_comp_drop_key {A} (ci : Z) (c : gmap Z A) (j : Z) :
  dict_comp (drop_key ci) c !! j = if j <? ci then c !! j else c !! (j + 1).
Proof.
  apply option_eq. intros v.
  rewrite lookup_dict_comp by apply drop_key_inj. unfold drop_key. split.
  - intros (i & Hi & Hv). repeat case_match; simplify_eq; try lia; try done.
    by rewrite Z.sub_add.
  - intros Hv. destruct (j <? ci) eqn:?.
    + exists j. by replace (j <? ci) with true by lia.
    + exists (j + 1). replace (j + 1 <? ci) with false by lia.
      replace (ci <? j + 1) with true by lia. split; [f_equal; lia|done].
Qed.

Lemma lookup_dict_comp_shift_key {A} (ci : Z) (c : gmap Z A) (j : Z) :
  dict_comp (shift_key ci) c !! j
  = if j <? ci then c !! j else if j =? ci then None else c !! (j - 1).
Proof.
  apply option_eq. intros v.
  rewrite lookup_dict_comp by apply shift_key_inj. unfold shift_key. split.
  - intros (i & Hi & Hv). repeat case_match; simplify_eq; try lia; try done.
    by rewrite Z.add_simpl_r.
  - intros Hv. destruct (j <? ci) eqn:?.
    + exists j. by replace (j <? ci) with true by lia.
    + destruct (j =? ci) eqn:?; [done|]. exists (j - 1).
      replace (j - 1 <? ci) with false by lia.
      replace (ci <=? j - 1) with true by lia. split; [f_equal; lia|done].
Qed.

(** ** The methods *)

(** Unfold one layer of the method monad. *)
Ltac unfold_M :=
  cbv beta iota zeta delta
    [_transaction bind ret raise get_cache put_cache get_writeback
     get_marker unpickle_reply Pipe.llen Pipe.lindex Pipe.lset Pipe.lrange
     Pipe.ltrim Pipe.delete Pipe.lrem Pipe.rpush Pipe.lpush Pipe.lpop
     Pipe.rpop Pipe.execute set_remote set_cache set_writeback
     remote writeback cache marker fst snd] in *.

Section Correctness.

Context {V : Type} `{EqDecision V}.
Variable pickle : V → bytes.
Variable unpickle : bytes → V.

(** C2. Deleting a middle index through the sentinel marker removes
    exactly the element at that absolute position, whatever else the list
    holds, provided no stored value equals the marker: the remote list
    loses position [p] and nothing else, the value that was there (or
    its cached override) is returned, and the cache is renumbered. *)
Theorem pop_middle_removes_exactly (st : List V) (index : Z) :
  marker st ∉ remote st →
  0 ≤ absolute (Redis.llen (remote st)) index < Redis.llen (remote st) →
  ∃ x,
    remote st !! Z.to_nat (absolute (Redis.llen (remote st)) index)
    = Some x ∧
    _pop_middle unpickle index st
    = (Return
         (if writeback st
          then default (unpickle x)
                 (cache st !! absolute (Redis.llen (remote st)) index)
          else unpickle x),
       mkList
         (delete (Z.to_nat (absolute (Redis.llen (remote st)) index))
            (remote st))
         (writeback st)
         (if writeback st
          then dict_comp
                 (drop_key (absolute (Redis.llen (remote st)) index))
                 (cache st)
          else cache st)
         (marker st)).
Proof.
  intros Hm Hp. destruct st as [l wb c m]. simpl in *.
  set (p := absolute (Redis.llen l) index) in *.
  assert (Hres : Redis.resolve (Redis.llen l) index = p)
    by apply resolve_normalize.
  destruct (lindex_in_range l index) as (x & Hx & Hlx); [by rewrite Hres|].
  rewrite Hres in Hlx. exists x. split; [done|].
  unfold _pop_middle, _normalize_index. unfold_M.
  fold (absolute (Redis.llen l) index). fold p.
  replace ((p <? 0) || (Redis.llen l <=? p)) with false
    by (symmetry; apply orb_false_iff; lia).
  rewrite Hx. unfold_M.
  rewrite lset_in_range by (by rewrite Hres). rewrite Hres. unfold_M.
  unfold Redis.lrem. cbn [Z.ltb Z.compare Z.to_nat Pos.to_nat Pos.iter_op
    Init.Nat.add].
  rewrite remove_first_insert by (done || unfold Redis.llen in *; lia).
  by destruct wb.
Qed.


(** A queued flush never raises by itself: it reports through its flag,
    and it only ever changes the remote list. *)
Lemma lset_each_buffered (items : list (Z * V)) (st : List V) :
  ∃ ok l',
    lset_each pickle Buffered items st
    = (Return ok, mkList l' (writeback st) (cache st) (marker st)) ∧
    Redis.llen l' = Redis.llen (remote st).
Proof.
  revert st. induction items as [|[i v] items IH]; intros [l wb c m].
  - by exists true, l.
  - cbn [lset_each remote writeback cache marker].
    destruct (Redis.lset l i (pickle v)) as [l1|] eqn:Hl.
    + destruct (IH (mkList l1 wb c m)) as (ok & l' & Heq & Hlen).
      cbn [remote writeback cache marker] in Heq, Hlen.
      exists ok, l'. split; [|rewrite Hlen; by eapply llen_lset].
      unfold_M. rewrite Hl. unfold_M. rewrite Heq. by unfold_M.
    + destruct (IH (mkList l wb c m)) as (ok & l' & Heq & Hlen).
      cbn [remote writeback cache marker] in Heq, Hlen.
      exists false, l'. split; [|done].
      unfold_M. rewrite Hl. unfold_M. rewrite Heq. by unfold_M.
Qed.

Lemma sync_buffered (st : List V) :
  ∃ o l',
    sync pickle st = (o, mkList l' (writeback st) ∅ (marker st)) ∧
    Redis.llen l' = Redis.llen (remote st).
Proof.
  destruct (lset_each_buffered (map_to_list (cache st)) st)
    as (ok & l' & Heq & Hlen).
  destruct st as [l wb c m]. cbn [remote writeback cache marker] in *.
  unfold sync, _sync_helper. unfold_M. rewrite Heq. unfold_M.
  destruct ok; eauto.
Qed.

Lemma sync_empty_cache (st : List V) :
  cache st = ∅ → sync pickle st = (Return tt, st).
Proof.
  destruct st as [l wb c m]. cbn [cache]. intros ->.
  unfold sync, _sync_helper. unfold_M.
  rewrite map_to_list_empty. cbn [lset_each]. by unfold_M.
Qed.

(** C4. Read-your-write: for an index in range, [set(i, v)] succeeds and
    the [get(i)] that follows returns [v], whether write-back is on or
    off. *)
Theorem getitem_after_setitem (st : List V) (index : Z) (value : V) :
  (∀ v, unpickle (pickle v) = v) →
  0 ≤ absolute (Redis.llen (remote st)) index < Redis.llen (remote st) →
  ∃ st1 st2,
    __setitem__ pickle index value st = (Return tt, st1) ∧
    __getitem__ unpickle index st1 = (Return value, st2).
Proof.
  intros Hrt Hp. destruct st as [l wb c m]. cbn [remote] in Hp.
  set (p := absolute (Redis.llen l) index) in *.
  assert (Hres : Redis.resolve (Redis.llen l) index = p)
    by apply resolve_normalize.
  pose proof (lset_in_range l index (pickle value)) as Hset.
  rewrite Hres in Hset. specialize (Hset Hp).
  set (l' := <[Z.to_nat p := pickle value]> l) in *.
  assert (Hlen : Redis.llen l' = Redis.llen l).
  { unfold Redis.llen, l'. by rewrite length_insert. }
  assert (Hget : Redis.lindex l' index = Some (pickle value)).
  { unfold Redis.lindex. rewrite Hlen, Hres.
    rewrite (proj2 (in_range_true _ _) Hp).
    apply list_lookup_insert_eq. unfold Redis.llen in *. lia. }
  unfold __setitem__, __getitem__, _normalize_index.
  destruct wb; unfold_M.
  - rewrite Hset. unfold_M. cbn [negb]. do 2 eexists. split; [reflexivity|].
    unfold_M. cbn [negb]. rewrite Hlen.
    fold (absolute (Redis.llen l) index). fold p.
    replace ((p <? 0) || (Redis.llen l <=? p)) with false
      by (symmetry; apply orb_false_iff; lia).
    by rewrite lookup_insert_eq.
  - rewrite Hset. unfold_M. cbn [negb]. do 2 eexists. split; [reflexivity|].
    unfold_M. cbn [negb]. rewrite Hget. unfold_M. by rewrite Hrt.
Qed.

(** C10. With write-back on, a scalar set whose remote overwrite is
    rejected as out of range raises [IndexError] and leaves the instance,
    its cache included, exactly as it was. *)
Theorem setitem_rejected_keeps_cache (st : List V) (index : Z) (value : V) :
  writeback st = true →
  ¬ 0 ≤ absolute (Redis.llen (remote st)) index < Redis.llen (remote st) →
  __setitem__ pickle index value st = (Raise IndexError, st).
Proof.
  intros Hwb Hp. destruct st as [l wb c m]. cbn [remote writeback] in *.
  subst wb. unfold absolute in Hp. rewrite <- resolve_normalize in Hp.
  unfold __setitem__, _normalize_index. unfold_M.
  rewrite lset_out_of_range by done. unfold_M. by cbn [negb].
Qed.

(** C9. [sync()] is idempotent: a second [sync()] right after the first
    succeeds, leaves the remote list as the first left it, and the cache
    is empty after the first call and after the second. *)
Theorem sync_idempotent (st : List V) :
  cache (snd (sync pickle st)) = ∅ ∧
  sync pickle (snd (sync pickle st)) = (Return tt, snd (sync pickle st)).
Proof.
  destruct (sync_buffered st) as (o & l' & -> & _). cbn [snd cache].
  split; [done|]. by apply sync_empty_cache.
Qed.

(** ** Which exceptions a method can raise *)

Lemma raises_only_ret {A} (P : exn → Prop) (a : A) :
  raises_only (V:=V) P (ret a).
Proof. intros st e. by unfold_M. Qed.

Lemma raises_only_raise {A} (P : exn → Prop) (e : exn) :
  P e → raises_only (V:=V) (A:=A) P (raise e).
Proof. intros HP st e'. unfold_M. cbn. by intros [= <-]. Qed.

Lemma raises_only_bind {A B} (P : exn → Prop) (m : M V A) (k : A → M V B) :
  raises_only P m → (∀ a, raises_only P (k a)) → raises_only P (bind m k).
Proof.
  intros Hm Hk st e. unfold bind.
  destruct (m st) as [[a|e'] st'] eqn:Hst.
  - apply Hk.
  - cbn. intros [= <-]. apply (Hm st). by rewrite Hst.
Qed.

Lemma raises_only_state {A} (P : exn → Prop) (f : List V → A * List V) :
  raises_only P (λ st, (Return (f st).1, (f st).2)).
Proof. by intros st e. Qed.

Lemma raises_only_rpush (P : exn → Prop) (xs : list bytes) :
  P ResponseError → raises_only (V:=V) P (Pipe.rpush xs).
Proof.
  intros HP st e. unfold Pipe.rpush.
  destruct (Redis.rpush _ _) as [[n l]|]; cbn; [done|by intros [= <-]].
Qed.

Lemma raises_only_lset (P : exn → Prop) mode (i : Z) (x : bytes) :
  P ResponseError → raises_only (V:=V) P (Pipe.lset mode i x).
Proof.
  intros HP st e. unfold Pipe.lset.
  destruct (Redis.lset _ _ _), mode; cbn; try done. by intros [= <-].
Qed.

Lemma raises_only_lset_each (P : exn → Prop) mode (items : list (Z * V)) :
  P ResponseError → raises_only P (lset_each pickle mode items).
Proof.
  intros HP. induction items as [|[i v] items IH]; cbn [lset_each].
  - apply raises_only_ret.
  - apply raises_only_bind; [by apply raises_only_lset|intros ok].
    apply raises_only_bind; [done|intros ok']. apply raises_only_ret.
Qed.

Lemma raises_only_sync_helper (P : exn → Prop) mode :
  P ResponseError → raises_only P (_sync_helper pickle mode).
Proof.
  intros HP. unfold _sync_helper.
  apply raises_only_bind; [by intros st e|intros c].
  apply raises_only_bind; [by apply raises_only_lset_each|intros ok].
  apply raises_only_bind; [by intros st e|intros _]. apply raises_only_ret.
Qed.

Lemma normalize_slice_returns (index : slice) (st : List V) :
  slice_step index ≠ Some 0 →
  ∃ r, _normalize_slice index st = (Return r, st).
Proof.
  intros Hstep. unfold _normalize_slice. rewrite decide_False by done.
  unfold_M. case_match. eauto.
Qed.

Lemma raises_only_normalize_slice (P : exn → Prop) (index : slice) :
  slice_step index ≠ Some 0 → raises_only (V:=V) P (_normalize_slice index).
Proof.
  intros Hstep st e.
  by destruct (normalize_slice_returns index st Hstep) as [r ->].
Qed.

Ltac raises :=
  repeat first
    [ apply raises_only_ret
    | apply raises_only_rpush
    | apply raises_only_sync_helper
    | apply raises_only_normalize_slice
    | apply raises_only_bind; [|intros ?]
    | progress cbv beta zeta
    | match goal with
      | |- raises_only _ (match ?x with _ => _ end) => destruct x
      end
    | by intros ? ?
    | congruence ].

Lemma raises_only_del_slice (index : slice) :
  slice_step index = None →
  raises_only (λ e, e ≠ NotImplementedError) (_del_slice pickle index).
Proof.
  intros Hstep. unfold _del_slice, _transaction, clear.
  rewrite decide_True by done. raises.
Qed.

Lemma raises_only_set_slice (index : slice) (value : list V) :
  slice_step index = None →
  raises_only (λ e, e ≠ NotImplementedError) (_set_slice pickle index value).
Proof.
  intros Hstep. unfold _set_slice, _transaction.
  rewrite decide_True by done. raises.
Qed.

(** C7 (amended). Slice delete and slice assignment raise
    [NotImplementedError] exactly when the slice carries a step at all, an
    explicit step of 1 or 0 included; with the step left out they never
    raise it.  A slice read with step 0 raises [ValueError]. *)
Theorem slice_step_guard
    (st : List V) (index : slice) (value : list V) (start stop : option Z) :
  (fst (_del_slice pickle index st) = Raise NotImplementedError
   ↔ slice_step index ≠ None) ∧
  (fst (_set_slice pickle index value st) = Raise NotImplementedError
   ↔ slice_step index ≠ None) ∧
  fst (_get_slice unpickle (Slice start stop (Some 0)) st) = Raise ValueError.
Proof.
  split_and!.
  - split.
    + intros Hr Hstep.
      by apply (raises_only_del_slice index Hstep st NotImplementedError).
    + intros Hstep. unfold _del_slice. by rewrite decide_False.
  - split.
    + intros Hr Hstep.
      by apply (raises_only_set_slice index value Hstep st NotImplementedError).
    + intros Hstep. unfold _set_slice. by rewrite decide_False.
  - done.
Qed.

End Correctness.

(** ** The properties on concrete lists *)

Lemma cached_list_wf : wf_cache cached_list.
Proof.
  intros i [v Hv]. change (0 ≤ i < 3).
  unfold cached_list in Hv. cbn [cache] in Hv.
  apply lookup_insert_Some in Hv as [[<- _]|[_ Hv]]; [lia|].
  apply lookup_singleton_Some in Hv as [<- _]. lia.
Qed.

Lemma pop_middle_removes_exactly_witness :
  _pop_middle Codec.unpickle_str 2 (str_list false ["c"; "b"; "c"; "d"])
  = (Return "c", str_list false ["c"; "b"; "d"]).
Proof.
  destruct (pop_middle_removes_exactly Codec.unpickle_str
              (str_list false ["c"; "b"; "c"; "d"]) 2) as (x & Hx & ->).
  - apply (bool_decide_unpack _). by vm_compute.
  - vm_compute. split; [discriminate|reflexivity].
  - vm_compute in Hx. injection Hx as <-. reflexivity.
Defined.



Lemma getitem_after_setitem_witness :
  ∃ st1 st2,
    __setitem__ Codec.pickle_str (-1) "z" cached_list = (Return tt, st1) ∧
    __getitem__ Codec.unpickle_str (-1) st1 = (Return "z", st2).
Proof.
  apply (getitem_after_setitem Codec.pickle_str Codec.unpickle_str
           cached_list (-1) "z").
  - reflexivity.
  - vm_compute. split; [discriminate|reflexivity].
Defined.

Lemma setitem_rejected_keeps_cache_witness :
  __setitem__ Codec.pickle_str 5 "z" cached_list
  = (Raise IndexError, cached_list).
Proof.
  apply (setitem_rejected_keeps_cache Codec.pickle_str cached_list 5 "z").
  - reflexivity.
  - vm_compute. intros [_ H]. discriminate H.
Defined.

(** C1. Deleting the slice [0:2] of [0, 1, 2, 3, 4] leaves [3, 4]: the
    element at position 2, outside the range, is removed as well; the
    interior slice [1:3] leaves [0, 4], losing position 3. *)
Theorem del_slice_removes_too_much :
  _del_slice Codec.pickle_int (Slice (Some 0) (Some 2) None)
    (int_list false [0; 1; 2; 3; 4])
  = (Return tt, int_list false [3; 4]) ∧
  _del_slice Codec.pickle_int (Slice (Some 1) (Some 3) None)
    (int_list false [0; 1; 2; 3; 4])
  = (Return tt, int_list false [0; 4]).
Proof. by vm_compute. Qed.

(** C6. On the one-element list ['a'], [index('a', 0, 0)] returns 0
    although the range [0, 0) is empty: an explicit stop of 0 is taken for
    a missing one. *)
Theorem index_explicit_zero_stop :
  index Codec.unpickle_str "a" (Some 0) (Some 0) (str_list false ["a"])
  = (Return 0, str_list false ["a"]).
Proof. by vm_compute. Qed.

(** C7 (as stated). A slice delete and a slice assignment with the step
    given explicitly as 1 are rejected with [NotImplementedError]; the list
    is left as it was. *)
Lemma explicit_unit_step_rejected :
  _del_slice Codec.pickle_int (Slice (Some 1) (Some 3) (Some 1))
    (int_list false [0; 1; 2; 3; 4])
  = (Raise NotImplementedError, int_list false [0; 1; 2; 3; 4]) ∧
  _set_slice Codec.pickle_int (Slice (Some 1) (Some 3) (Some 1)) [7; 8]
    (int_list false [0; 1; 2; 3; 4])
  = (Raise NotImplementedError, int_list false [0; 1; 2; 3; 4]).
Proof. by vm_compute. Qed.

(** C8. On a write-back list of three values with an empty cache,
    [insert(10, 'b')] succeeds, the remote list has four values afterwards
    and the cache holds key 10: the cache is no longer well-formed. *)
Theorem insert_breaks_cache_invariant :
  wf_cache (str_list true ["x"; "x"; "x"]) ∧
  ∃ st',
    insert Codec.pickle_str 10 "b" (str_list true ["x"; "x"; "x"])
    = (Return tt, st') ∧
    Redis.llen (remote st') = 4 ∧
    cache st' !! 10 = Some "b" ∧
    ¬ wf_cache st'.
Proof.
  split.
  - intros i [v Hv]. cbn in Hv. by rewrite lookup_empty in Hv.
  - eexists. split; [by vm_compute|]. split_and!; [done..|].
    intros Hwf. specialize (Hwf 10 (ex_intro _ "b" eq_refl)).
    vm_compute in Hwf. destruct Hwf as [_ H]. discriminate H.
Qed.

(** ** Further behaviour of the methods *)

Lemma llen_nonneg (l : list bytes) : 0 ≤ Redis.llen l.
Proof. unfold Redis.llen. lia. Qed.

(** Turn the boolean tests among the hypotheses into propositions. *)
Ltac split_andb :=
  repeat match goal with
  | H : _ && _ = true |- _ => apply andb_true_iff in H as [? ?]
  | H : _ && _ = false |- _ => apply andb_false_iff in H as [?|?]
  | H : (_ <=? _) = true |- _ => apply Z.leb_le in H
  | H : (_ <=? _) = false |- _ => apply Z.leb_gt in H
  | H : (_ <? _) = true |- _ => apply Z.ltb_lt in H
  | H : (_ <? _) = false |- _ => apply Z.ltb_ge in H
  end.

Section Behaviour.
Context {V : Type} `{EqDecision V}.
Variable pickle : V → bytes.
Variable unpickle : bytes → V.

Lemma bind_return {A B} (m : M V A) (k : A → M V B) st a st' :
  m st = (Return a, st') → bind m k st = k a st'.
Proof. intros Hm. unfold bind. by rewrite Hm. Qed.

Lemma lookup_enumerate {A} (xs : list A) (start : Z) (k : nat) :
  enumerate start xs !! k = (λ x, (start + Z.of_nat k, x)) <$> xs !! k.
Proof.
  revert start k. induction xs as [|x xs IH]; intros start [|k]; try done.
  - cbn. by rewrite Z.add_0_r.
  - cbn [enumerate]. cbn [lookup list_lookup]. rewrite IH.
    destruct (xs !! k); cbn; [|done]. do 2 f_equal. lia.
Qed.

Lemma length_enumerate {A} (xs : list A) (start : Z) :
  length (enumerate start xs) = length xs.
Proof.
  revert start. induction xs as [|x xs IH]; intros start; [done|].
  cbn. by rewrite IH.
Qed.


(** X2. [pop] on an empty list raises [IndexError] whatever the index
    (head, tail or middle), and leaves the instance as it was. *)
Theorem pop_empty_raises
    (index : Z) (wb : bool) (c : gmap Z V) (m : bytes) :
  pop unpickle index (mkList [] wb c m)
  = (Raise IndexError, mkList [] wb c m).
Proof.
  unfold pop, _pop_left, _pop_right, _pop_middle, _normalize_index.
  destruct (index =? 0); [done|]. destruct (index =? -1); [done|].
  unfold_M. change (Redis.llen []) with 0.
  replace (_ || _) with true; [done|].
  symmetry. apply orb_true_iff. destruct (0 <=? index); lia.
Qed.

Lemma getitem_rejects (st : List V) (index : Z) :
  ¬ 0 ≤ absolute (Redis.llen (remote st)) index < Redis.llen (remote st) →
  __getitem__ unpickle index st = (Raise IndexError, st).
Proof.
  intros Hp. destruct st as [l wb c m]. cbn [remote] in Hp.
  unfold __getitem__, _normalize_index. unfold_M.
  destruct wb; cbn [negb].
  - fold (absolute (Redis.llen l) index).
    replace (_ || _) with true; [done|].
    symmetry. apply orb_true_iff. lia.
  - unfold absolute in Hp. rewrite <- resolve_normalize in Hp.
    by rewrite lindex_out_of_range.
Qed.

(** X3. [__getitem__] with an index whose absolute position is outside
    the list raises [IndexError] and changes neither the remote list nor
    the cache: with write-back on for every index (the bounds are checked
    before the store is asked), with write-back off for every index the
    store accepts (the raw index goes to LINDEX). *)
Theorem getitem_out_of_range (st : List V) (index : Z) :
  writeback st = true ∨ store_accepts index →
  ¬ 0 ≤ absolute (Redis.llen (remote st)) index < Redis.llen (remote st) →
  __getitem__ unpickle index st = (Raise IndexError, st).
Proof. intros _. apply getitem_rejects. Qed.

Lemma pop_middle_rejects (st : List V) (index : Z) :
  ¬ 0 ≤ absolute (Redis.llen (remote st)) index < Redis.llen (remote st) →
  _pop_middle unpickle index st = (Raise IndexError, st).
Proof.
  intros Hp. destruct st as [l wb c m]. cbn [remote] in Hp.
  unfold _pop_middle, _normalize_index. unfold_M.
  fold (absolute (Redis.llen l) index).
  replace (_ || _) with true; [done|].
  symmetry. apply orb_true_iff. lia.
Qed.

(** X4. Deleting or popping a middle index whose absolute position is
    outside the list raises [IndexError] and leaves the instance as it
    was: nothing is marked or removed. *)
Theorem pop_middle_out_of_range (st : List V) (index : Z) :
  ¬ 0 ≤ absolute (Redis.llen (remote st)) index < Redis.llen (remote st) →
  _pop_middle unpickle index st = (Raise IndexError, st).
Proof. apply pop_middle_rejects. Qed.

Lemma getitem_accepts (st : List V) (index : Z) :
  0 ≤ absolute (Redis.llen (remote st)) index < Redis.llen (remote st) →
  ∃ x,
    remote st !! Z.to_nat (absolute (Redis.llen (remote st)) index) = Some x ∧
    __getitem__ unpickle index st
    = if writeback st then
        (Return
           (default (unpickle x)
              (cache st !! absolute (Redis.llen (remote st)) index)),
         set_cache
           (<[absolute (Redis.llen (remote st)) index :=
                default (unpickle x)
                  (cache st !! absolute (Redis.llen (remote st)) index)]>
              (cache st)) st)
      else (Return (unpickle x), st).
Proof.
  intros Hp. destruct st as [l wb c m]. cbn [remote writeback cache] in *.
  set (p := absolute (Redis.llen l) index) in *.
  assert (Hres : Redis.resolve (Redis.llen l) index = p)
    by apply resolve_normalize.
  destruct (lindex_in_range l index) as (x & Hx & Hlk); [by rewrite Hres|].
  rewrite Hres in Hlk. exists x. split; [done|].
  unfold __getitem__, _normalize_index. unfold_M.
  destruct wb; cbn [negb].
  - fold (absolute (Redis.llen l) index). fold p.
    replace ((p <? 0) || (Redis.llen l <=? p)) with false
      by (symmetry; apply orb_false_iff; lia).
    destruct (c !! p) as [v|] eqn:Hc; cbn [default].
    + by rewrite insert_id.
    + rewrite Hx. by unfold_M.
  - by rewrite Hx.
Qed.

(** X5. [__getitem__] with an index in range never changes the remote
    list.  With write-back off it returns the stored value; with
    write-back on it returns the cached value when the position is cached,
    and otherwise the stored value, which it then caches at the absolute
    position. *)
Theorem getitem_in_range (st : List V) (index : Z) :
  0 ≤ absolute (Redis.llen (remote st)) index < Redis.llen (remote st) →
  ∃ x,
    remote st !! Z.to_nat (absolute (Redis.llen (remote st)) index) = Some x ∧
    __getitem__ unpickle index st
    = if writeback st then
        (Return
           (default (unpickle x)
              (cache st !! absolute (Redis.llen (remote st)) index)),
         set_cache
           (<[absolute (Redis.llen (remote st)) index :=
                default (unpickle x)
                  (cache st !! absolute (Redis.llen (remote st)) index)]>
              (cache st)) st)
      else (Return (unpickle x), st).
Proof. apply getitem_accepts. Qed.

Lemma pop_left_cons
    (x : bytes) (l : list bytes) (wb : bool) (c : gmap Z V) (m : bytes) :
  ∃ c',
    _pop_left unpickle (mkList (x :: l) wb c m)
    = (Return (default (unpickle x) (c !! 0)), mkList l wb c' m) ∧
    ∀ j, c' !! j
         = if wb then (if j =? -1 then None else c !! (j + 1)) else c !! j.
Proof.
  unfold _pop_left. unfold_M. cbn [Redis.lpop]. unfold_M.
  destruct wb; unfold_M.
  - eexists. split; [reflexivity|]. apply lookup_dict_comp_pop_left.
  - by exists c.
Qed.

(** X6. [_pop_left] on a non-empty list removes the head and nothing
    else, and returns the value cached for position 0 when there is one,
    the stored head otherwise.  With write-back on, the entry of position
    0 is dropped from the cache and every other entry moves down by one
    position. *)
Theorem pop_left_removes_head
    (x : bytes) (l : list bytes) (wb : bool) (c : gmap Z V) (m : bytes) :
  ∃ c',
    _pop_left unpickle (mkList (x :: l) wb c m)
    = (Return (default (unpickle x) (c !! 0)), mkList l wb c' m) ∧
    ∀ j, c' !! j
         = if wb then (if j =? -1 then None else c !! (j + 1)) else c !! j.
Proof. apply pop_left_cons. Qed.

Lemma pop_right_snoc
    (l : list bytes) (x : bytes) (wb : bool) (c : gmap Z V) (m : bytes) :
  _pop_right unpickle (mkList (l ++ [x]) wb c m)
  = (Return (if wb then default (unpickle x) (c !! Redis.llen l)
             else unpickle x),
     mkList l wb (if wb then delete (Redis.llen l) c else c) m).
Proof.
  assert (Hlen : Redis.llen (l ++ [x]) + -1 = Redis.llen l).
  { unfold Redis.llen. rewrite length_app. cbn. lia. }
  assert (Hpop : Redis.rpop (l ++ [x]) = Some (x, l)).
  { unfold Redis.rpop. rewrite reverse_snoc.
    change (Some (x, reverse (reverse l)) = Some (x, l)).
    by rewrite reverse_involutive. }
  unfold _pop_right, _normalize_index. unfold_M.
  replace (Redis.llen (l ++ [x]) =? 0) with false
    by (pose proof (llen_nonneg l); lia).
  rewrite Hpop. unfold_M. destruct wb; unfold_M; [|done].
  cbn [Z.leb Z.compare]. rewrite Hlen. by rewrite dict_comp_pop_right.
Qed.

(** X7. [_pop_right] on a non-empty list removes the last element and
    nothing else.  With write-back off it returns the stored value; with
    write-back on it returns the value cached for the last position when
    there is one, and removes exactly that key from the cache. *)
Theorem pop_right_removes_last
    (l : list bytes) (x : bytes) (wb : bool) (c : gmap Z V) (m : bytes) :
  _pop_right unpickle (mkList (l ++ [x]) wb c m)
  = (Return (if wb then default (unpickle x) (c !! Redis.llen l)
             else unpickle x),
     mkList l wb (if wb then delete (Redis.llen l) c else c) m).
Proof. apply pop_right_snoc. Qed.

Lemma lookup_cache_all (values : list V) (start : Z) (c : gmap Z V) (j : Z) :
  cache_all start values c !! j
  = if (start <=? j) && (j <? start + Z.of_nat (length values))
    then values !! Z.to_nat (j - start) else c !! j.
Proof.
  revert start c. induction values as [|v vs IH]; intros start c.
  - cbn [cache_all enumerate foldl length]. change (Z.of_nat 0) with 0.
    case_match; [lia|done].
  - change (cache_all start (v :: vs) c)
      with (cache_all (start + 1) vs (<[start := v]> c)).
    rewrite IH. cbn [length]. rewrite Nat2Z.inj_succ.
    destruct (decide (j = start)) as [->|Hne].
    + repeat case_match; split_andb; try lia.
      rewrite lookup_insert_eq. by rewrite Z.sub_diag.
    + rewrite lookup_insert_ne by done.
      repeat case_match; split_andb; try lia; try done.
      by replace (Z.to_nat (j - start))
        with (S (Z.to_nat (j - (start + 1)))) by lia.
Qed.

(** X8. [append] followed by [pop()] is a round trip: on a list whose
    cache is well-formed, [append(v)] succeeds, the [pop()] that follows
    returns [v], and the instance is back in the state it started from,
    with write-back on or off. *)
Theorem append_then_pop (st : List V) (value : V) :
  (∀ v, unpickle (pickle v) = v) →
  wf_cache st →
  ∃ st1,
    append pickle value st = (Return tt, st1) ∧
    pop unpickle (-1) st1 = (Return value, st).
Proof.
  intros Hrt Hwf. destruct st as [l wb c m].
  assert (Hc : c !! Redis.llen l = None).
  { apply eq_None_not_Some. intros Hs. apply Hwf in Hs. cbn in Hs. lia. }
  assert (Hlen : Redis.llen (l ++ [pickle value]) - 1 = Redis.llen l).
  { unfold Redis.llen. rewrite length_app. cbn. lia. }
  unfold append. unfold_M. cbn [Redis.rpush]. unfold_M. rewrite Hlen.
  destruct wb; unfold_M; (eexists; split; [reflexivity|]);
    unfold pop; cbn [Z.eqb]; rewrite pop_right_snoc.
  - rewrite lookup_insert_eq. cbn [default].
    by rewrite delete_insert_eq, delete_id.
  - by rewrite Hrt.
Qed.

Lemma extend_nonempty (st : List V) (other : list V) :
  other ≠ [] →
  ∃ c',
    extend pickle other st
    = (Return tt,
       mkList (remote st ++ (pickle <$> other)) (writeback st) c'
         (marker st)) ∧
    ∀ j, c' !! j
         = if writeback st &&
              ((Redis.llen (remote st) <=? j) &&
               (j <? Redis.llen (remote st) + Z.of_nat (length other)))
           then other !! Z.to_nat (j - Redis.llen (remote st))
           else cache st !! j.
Proof.
  intros Hne. destruct st as [l wb c m]. cbn [remote writeback cache marker].
  assert (Hpush : Redis.rpush l (pickle <$> other)
                  = Some (Redis.llen (l ++ (pickle <$> other)),
                          l ++ (pickle <$> other))).
  { by destruct other. }
  assert (Hlen : Redis.llen (l ++ (pickle <$> other))
                 - Z.of_nat (length other) = Redis.llen l).
  { unfold Redis.llen. rewrite length_app, length_fmap. lia. }
  unfold extend. unfold_M. rewrite Hpush. unfold_M. rewrite Hlen.
  destruct wb; cbn [andb].
  - eexists. split; [reflexivity|]. intros j. apply lookup_cache_all.
  - by exists c.
Qed.

(** X9. [extend] with a non-empty sequence appends the pickled values to
    the remote list in order.  With write-back on, each new value is
    cached at the position it was stored at and the other cache entries
    are kept; with write-back off the cache is not touched. *)
Theorem extend_appends (st : List V) (other : list V) :
  other ≠ [] →
  ∃ c',
    extend pickle other st
    = (Return tt,
       mkList (remote st ++ (pickle <$> other)) (writeback st) c'
         (marker st)) ∧
    ∀ j, c' !! j
         = if writeback st &&
              ((Redis.llen (remote st) <=? j) &&
               (j <? Redis.llen (remote st) + Z.of_nat (length other)))
           then other !! Z.to_nat (j - Redis.llen (remote st))
           else cache st !! j.
Proof. apply extend_nonempty. Qed.

(** X10. [extend] with an empty sequence raises [ResponseError]: the push
    is sent without a value and the server rejects it.  The instance is
    left as it was. *)
Theorem extend_empty_raises (st : List V) :
  extend pickle [] st = (Raise ResponseError, st).
Proof. by destruct st. Qed.

Lemma to_nat_llen (l : list bytes) : Z.to_nat (Redis.llen l) = length l.
Proof. unfold Redis.llen. lia. Qed.

(** X11. [insert] at index 0, at index -1, or at any other index whose
    absolute position [p] is positive and accepted by the store puts the
    pickled value at position [p] of the remote list and keeps the
    elements before and after it in order; index -1 counts as the tail
    position, and an accepted position past the end appends. *)
Theorem insert_places_value (st : List V) (index : Z) (value : V) :
  index = 0 ∨ index = -1 ∨
  (0 < absolute (Redis.llen (remote st)) index ∧
   store_accepts (absolute (Redis.llen (remote st)) index)) →
  ∃ c',
    insert pickle index value st
    = (Return tt,
       mkList
         (take (Z.to_nat (insert_position (Redis.llen (remote st)) index))
            (remote st)
          ++ pickle value
             :: drop (Z.to_nat (insert_position (Redis.llen (remote st)) index))
                  (remote st))
         (writeback st) c' (marker st)).
Proof.
  intros Hp. destruct st as [l wb c m]. cbn [remote writeback marker] in *.
  unfold insert, insert_position in *.
  destruct (index =? 0) eqn:H0; [|destruct (index =? -1) eqn:H1].
  - unfold_M. cbn [Redis.lpush]. unfold_M. destruct wb; by eexists.
  - unfold_M. cbn [Redis.rpush]. unfold_M.
    rewrite to_nat_llen, take_ge, drop_ge by done.
    destruct wb; by eexists.
  - destruct Hp as [->|[->|[Hp _]]]; [done..|].
    unfold _normalize_index. unfold_M.
    fold (absolute (Redis.llen l) index).
    set (p := absolute (Redis.llen l) index) in *.
    unfold Redis.lrange, Redis.ltrim.
    rewrite range_to_end, range_nonneg by lia.
    replace (Z.to_nat (p - 1 - 0 + 1)) with (Z.to_nat p) by lia.
    cbn [Z.to_nat drop Redis.rpush]. unfold_M.
    destruct wb; by eexists.
Qed.

(** X12. On a list of two or more elements, [insert] at minus the length
    does not put the value in front: the trim before the push keeps the
    whole list, so the remote list becomes the old list, the value, and
    the old list again. *)
Theorem insert_at_minus_length_duplicates (st : List V) (value : V) :
  2 ≤ Redis.llen (remote st) →
  ∃ c',
    insert pickle (- Redis.llen (remote st)) value st
    = (Return tt,
       mkList (remote st ++ pickle value :: remote st)
         (writeback st) c' (marker st)).
Proof.
  intros Hn. destruct st as [l wb c m]. cbn [remote writeback marker] in *.
  unfold insert.
  replace (- Redis.llen l =? 0) with false by lia.
  replace (- Redis.llen l =? -1) with false by lia.
  unfold _normalize_index. unfold_M.
  replace (0 <=? - Redis.llen l) with false by lia.
  replace (Redis.llen l + - Redis.llen l) with 0 by lia.
  unfold Redis.lrange, Redis.ltrim. cbn [Z.sub Z.add Z.opp Z.pos_sub].
  rewrite !range_all. cbn [Redis.rpush]. unfold_M.
  destruct wb; by eexists.
Qed.

(** *** Slices with the step left out *)

Lemma normalize_slice_forward (index : slice) (st : List V) :
  slice_step index = None →
  ∃ start stop,
    _normalize_slice index st
    = (Return (start, stop, 1, true, Redis.llen (remote st)), st) ∧
    0 ≤ start ≤ Redis.llen (remote st) ∧
    0 ≤ stop ≤ Redis.llen (remote st).
Proof.
  intros Hstep. pose proof (llen_nonneg (remote st)) as Hn.
  destruct index as [a b s]. cbn in Hstep. subst s.
  unfold _normalize_slice. rewrite decide_False by done. unfold_M.
  cbn [slice_start slice_stop slice_step py_or Z.ltb Z.compare Z.abs].
  do 2 eexists. split; [reflexivity|].
  destruct a, b; repeat case_match; lia.
Qed.

Lemma rpush_nonempty (l xs : list bytes) :
  xs ≠ [] → Redis.rpush l xs = Some (Redis.llen (l ++ xs), l ++ xs).
Proof. by destruct xs. Qed.

Lemma sync_helper_empty_cache mode (st : List V) :
  cache st = ∅ → _sync_helper pickle mode st = (Return true, st).
Proof.
  destruct st as [l wb c m]. cbn [cache]. intros ->.
  unfold _sync_helper. unfold_M. rewrite map_to_list_empty.
  cbn [lset_each]. by unfold_M.
Qed.

Lemma lookup_overlay (c : gmap Z V) (start : Z) (xs : list bytes) (k : nat) :
  overlay unpickle c start xs !! k
  = (λ x, default (unpickle x) (c !! (start + Z.of_nat k))) <$> xs !! k.
Proof.
  unfold overlay. rewrite list_lookup_fmap, lookup_enumerate.
  by destruct (xs !! k).
Qed.

Lemma length_overlay (c : gmap Z V) (start : Z) (xs : list bytes) :
  length (overlay unpickle c start xs) = length xs.
Proof. unfold overlay. by rewrite length_fmap, length_enumerate. Qed.

Lemma lookup_islice_from {A} (step : nat) (xs : list A) (skip k : nat) :
  (0 < step)%nat →
  islice_from skip step xs !! k = xs !! (skip + k * step)%nat.
Proof.
  intros Hstep. revert skip k.
  induction xs as [|x xs IH]; intros skip k; [done|].
  cbn [islice_from]. destruct skip as [|skip].
  - destruct k as [|k]; [done|].
    cbn [lookup list_lookup]. rewrite IH.
    replace (0 + S k * step)%nat with (S (step - 1 + k * step)) by lia.
    done.
  - rewrite IH. done.
Qed.

(** The fetched range, overlaid with the cache: position [j] of it is the
    effective value of absolute position [start + j]. *)
Lemma lookup_fetched_range
    (st : List V) (start stop : Z) (j : nat) :
  0 ≤ start ≤ Redis.llen (remote st) →
  0 ≤ stop ≤ Redis.llen (remote st) →
  overlay unpickle (cache st) start
    (take (Z.to_nat (stop - start)) (drop (Z.to_nat start) (remote st))) !! j
  = if Z.of_nat j <? stop - start
    then effective unpickle st (start + Z.of_nat j) else None.
Proof.
  intros Hs He. rewrite lookup_overlay. unfold effective.
  destruct (Z.of_nat j <? stop - start) eqn:Hj.
  - apply Z.ltb_lt in Hj. rewrite lookup_take_lt, lookup_drop by lia.
    rewrite (proj2 (Z.ltb_ge _ _)) by lia.
    by replace (Z.to_nat (start + Z.of_nat j)) with (Z.to_nat start + j)%nat
      by lia.
  - apply Z.ltb_ge in Hj. by rewrite lookup_take_ge by lia.
Qed.

(** What a slice read returns, position by position, in terms of the
    range, the step and the direction that [_normalize_slice] computes. *)
Lemma get_slice_lookup
    (st : List V) (index : slice) (start stop step : Z) (forward : bool) :
  _normalize_slice index st
  = (Return (start, stop, step, forward, Redis.llen (remote st)), st) →
  0 ≤ start ≤ Redis.llen (remote st) →
  0 ≤ stop ≤ Redis.llen (remote st) →
  0 < step →
  ∃ vs,
    _get_slice unpickle index st = (Return vs, st) ∧
    ∀ k : nat,
      vs !! k
      = if Z.of_nat k * step <? stop - start
        then effective unpickle st
               (if forward then start + Z.of_nat k * step
                else stop - 1 - Z.of_nat k * step)
        else None.
Proof.
  intros Heq Hs He Hstep.
  unfold _get_slice, _transaction. rewrite (bind_return _ _ _ _ _ Heq).
  cbv beta iota. destruct (start =? stop) eqn:Hse.
  - exists []. split; [done|]. intros k.
    by rewrite (proj2 (Z.ltb_ge _ _)) by nia.
  - destruct st as [l wb c m]. cbn [remote cache] in *.
    pose proof (lookup_fetched_range (mkList l wb c m) start stop) as Hxs.
    cbn [remote cache] in Hxs.
    unfold_M. unfold Redis.lrange. rewrite range_nonneg by lia.
    replace (Z.to_nat (Z.max (stop - 1) 0 - start + 1))
      with (Z.to_nat (stop - start)) by lia.
    set (xs := overlay unpickle c start
                 (take (Z.to_nat (stop - start)) (drop (Z.to_nat start) l)))
      in *.
    assert (Hlen : length xs = Z.to_nat (stop - start)).
    { unfold xs. rewrite length_overlay, length_take, length_drop.
      unfold Redis.llen in *. lia. }
    eexists. split; [reflexivity|]. intros k.
    assert (Hsub :
      (if step =? 1 then (if forward then xs else reverse xs)
       else islice (if forward then xs else reverse xs) step) !! k
      = (if forward then xs else reverse xs) !! (k * Z.to_nat step)%nat).
    { destruct (step =? 1) eqn:H1.
      - replace (Z.to_nat step) with 1%nat by lia. by rewrite Nat.mul_1_r.
      - unfold islice. by rewrite lookup_islice_from by lia. }
    rewrite Hsub.
    assert (Hj : Z.of_nat (k * Z.to_nat step) = Z.of_nat k * step) by lia.
    destruct forward.
    + rewrite Hxs by done. by rewrite Hj.
    + destruct (Z.of_nat k * step <? stop - start) eqn:Hin.
      * apply Z.ltb_lt in Hin.
        rewrite reverse_lookup by lia. rewrite Hxs by done.
        rewrite (proj2 (Z.ltb_lt _ _)) by lia. f_equal. lia.
      * apply Z.ltb_ge in Hin.
        apply lookup_ge_None_2. rewrite length_reverse. lia.
Qed.

(** [_normalize_slice] computes what §4.2 says. *)
Lemma normalize_slice_spec (index : slice) (st : List V) :
  slice_step index ≠ Some 0 →
  _normalize_slice index st
  = (Return (SliceSpec.start (Redis.llen (remote st)) index,
             SliceSpec.stop (Redis.llen (remote st)) index,
             SliceSpec.step_magnitude index,
             SliceSpec.forward index,
             Redis.llen (remote st)), st) ∧
  0 ≤ SliceSpec.start (Redis.llen (remote st)) index
    ≤ Redis.llen (remote st) ∧
  0 ≤ SliceSpec.stop (Redis.llen (remote st)) index
    ≤ Redis.llen (remote st) ∧
  0 < SliceSpec.step_magnitude index.
Proof.
  intros Hz. pose proof (llen_nonneg (remote st)) as Hn.
  unfold _normalize_slice. rewrite decide_False by done. unfold_M.
  unfold SliceSpec.start, SliceSpec.stop, SliceSpec.given_start,
    SliceSpec.given_stop, SliceSpec.clamp, SliceSpec.step_magnitude,
    SliceSpec.forward.
  set (n := Redis.llen (remote st)) in *.
  assert (Hpy : py_or (slice_step index) 1 = default 1 (slice_step index)).
  { destruct index as [a b [s|]]; cbn in *; [|done].
    assert (s ≠ 0) by congruence. by replace (s =? 0) with false by lia. }
  assert (Hnz : default 1 (slice_step index) ≠ 0).
  { destruct index as [a b [s|]]; cbn in *; congruence. }
  rewrite Hpy.
  destruct (0 <? default 1 (slice_step index));
    (split; [reflexivity|]);
    destruct (slice_start index), (slice_stop index);
    repeat case_match; lia.
Qed.

(** C5. A slice read follows the normalization of §4.2.  For every
    instance and every slice with a non-zero step of magnitude at most
    [sys.maxsize], the read returns and changes nothing; with [start],
    [stop], the magnitude and the direction as §4.2 defines them, its
    [k]-th value is the effective value of position [start + k * step]
    for a forward slice and of position [stop - 1 - k * step] for a
    backward one, as long as [k * step] stays below [stop - start], and
    there are no further values. *)
Theorem get_slice_follows_normalization (st : List V) (index : slice) :
  slice_step index ≠ Some 0 →
  SliceSpec.step_magnitude index ≤ sys_maxsize →
  ∃ vs,
    _get_slice unpickle index st = (Return vs, st) ∧
    ∀ k : nat,
      vs !! k
      = if Z.of_nat k * SliceSpec.step_magnitude index
           <? SliceSpec.stop (Redis.llen (remote st)) index
              - SliceSpec.start (Redis.llen (remote st)) index
        then effective unpickle st
               (if SliceSpec.forward index
                then SliceSpec.start (Redis.llen (remote st)) index
                     + Z.of_nat k * SliceSpec.step_magnitude index
                else SliceSpec.stop (Redis.llen (remote st)) index - 1
                     - Z.of_nat k * SliceSpec.step_magnitude index)
        else None.
Proof.
  intros Hz _.
  destruct (normalize_slice_spec index st Hz) as (Heq & Hs & He & Hstep).
  by apply get_slice_lookup.
Qed.

(** X13. A slice read with the step left out changes neither the remote
    list nor the cache, and returns, in order, one value for each of the
    positions [start .. stop - 1] that [_normalize_slice] computes (none
    when [stop <= start]): the cached value of the position when the cache
    has one, the unpickled stored element otherwise. *)
Theorem get_slice_unit_step
    (st : List V) (index : slice) (start stop step n : Z) (forward : bool) :
  slice_step index = None →
  fst (_normalize_slice index st) = Return (start, stop, step, forward, n) →
  ∃ vs,
    _get_slice unpickle index st = (Return vs, st) ∧
    ∀ k : nat,
      vs !! k
      = if Z.of_nat k <? stop - start
        then (λ x, default (unpickle x)
                     (cache st !! (start + Z.of_nat k)))
             <$> remote st !! Z.to_nat (start + Z.of_nat k)
        else None.
Proof.
  intros Hstep Hnorm.
  destruct (normalize_slice_forward index st Hstep)
    as (s0 & e0 & Heq & Hs & He).
  rewrite Heq in Hnorm. cbn in Hnorm. simplify_eq.
  destruct (get_slice_lookup st index start stop 1 true Heq Hs He)
    as (vs & Hget & Hlk); [lia|].
  exists vs. split; [done|]. intros k. rewrite Hlk, Z.mul_1_r.
  destruct (Z.of_nat k <? stop - start) eqn:Hk; [|done].
  unfold effective. by rewrite (proj2 (Z.ltb_ge _ _)) by lia.
Qed.

(** X14. A slice assignment with the step left out, a non-empty value
    and nothing pending in the cache rebuilds the remote list as the
    elements before [start], the pickled new values, and the elements
    from [stop] on, with [start] and [stop] as [_normalize_slice] computes
    them. *)
Theorem set_slice_replaces_range
    (st : List V) (index : slice) (value : list V)
    (start stop step n : Z) (forward : bool) :
  slice_step index = None →
  cache st = ∅ →
  value ≠ [] →
  fst (_normalize_slice index st) = Return (start, stop, step, forward, n) →
  _set_slice pickle index value st
  = (Return tt,
     set_remote
       (take (Z.to_nat start) (remote st) ++ (pickle <$> value)
        ++ drop (Z.to_nat stop) (remote st)) st).
Proof.
  intros Hstep Hc Hv Hnorm.
  destruct (normalize_slice_forward index st Hstep)
    as (s0 & e0 & Heq & Hs & He).
  rewrite Heq in Hnorm. cbn in Hnorm. simplify_eq.
  pose proof (sync_helper_empty_cache Immediate st Hc) as Hsync.
  destruct st as [l wb c m]. cbn [remote cache] in *.
  unfold _set_slice. rewrite decide_True by done.
  unfold_M. rewrite Heq. unfold_M.
  assert (Hleft : (if start =? 0 then [] else Redis.lrange l 0 (start - 1))
                  = take (Z.to_nat start) l).
  { destruct (start =? 0) eqn:H0.
    - by replace (Z.to_nat start) with 0%nat by lia.
    - unfold Redis.lrange. rewrite range_nonneg by lia.
      by replace (Z.to_nat (start - 1 - 0 + 1)) with (Z.to_nat start) by lia. }
  assert (Hright : (if stop =? Redis.llen l then []
                    else Redis.lrange l stop (-1))
                   = drop (Z.to_nat stop) l).
  { destruct (stop =? Redis.llen l) eqn:Hn.
    - rewrite drop_ge; [done|]. unfold Redis.llen in *. lia.
    - unfold Redis.lrange. by rewrite range_to_end by lia. }
  assert (Hne : take (Z.to_nat start) l ++ (pickle <$> value)
                ++ drop (Z.to_nat stop) l ≠ []).
  { destruct value; [done|]. by destruct (take _ l). }
  destruct wb; unfold_M.
  - rewrite Hsync. unfold_M.
    destruct (start =? 0), (stop =? Redis.llen l); unfold_M;
      rewrite <- ?Hleft, <- ?Hright in *;
      unfold Redis.delete; by rewrite rpush_nonempty.
  - destruct (start =? 0), (stop =? Redis.llen l); unfold_M;
      rewrite <- ?Hleft, <- ?Hright in *;
      unfold Redis.delete; by rewrite rpush_nonempty.
Qed.

(** X15. A slice delete with the step left out whose normalized range
    runs to the end of the list keeps exactly the first [start] elements
    (nothing pending in the cache): the empty range at the end is a no-op,
    the full range clears the list, and any other start trims the tail. *)
Theorem del_slice_to_end
    (st : List V) (index : slice) (start step n : Z) (forward : bool) :
  slice_step index = None →
  cache st = ∅ →
  fst (_normalize_slice index st)
  = Return (start, Redis.llen (remote st), step, forward, n) →
  _del_slice pickle index st
  = (Return tt, set_remote (take (Z.to_nat start) (remote st)) st).
Proof.
  intros Hstep Hc Hnorm.
  destruct (normalize_slice_forward index st Hstep)
    as (s0 & e0 & Heq & Hs & He).
  rewrite Heq in Hnorm. cbn in Hnorm. simplify_eq.
  pose proof (sync_helper_empty_cache Immediate st Hc) as Hsync.
  destruct st as [l wb c m]. cbn [remote cache] in *. subst c.
  unfold _del_slice, clear. rewrite decide_True by done.
  unfold_M. rewrite Heq. unfold_M.
  destruct (start =? Redis.llen l) eqn:Hse.
  - rewrite take_ge; [done|]. unfold Redis.llen in *. lia.
  - rewrite Z.eqb_refl. cbn [negb andb].
    assert (Htrim : start ≠ 0 →
                    Redis.ltrim l 0 (start - 1) = take (Z.to_nat start) l).
    { intros H0. unfold Redis.ltrim. rewrite range_nonneg by lia.
      by replace (Z.to_nat (start - 1 - 0 + 1)) with (Z.to_nat start)
        by lia. }
    destruct wb; unfold_M; rewrite ?Hsync; unfold_M;
      (destruct (start =? 0) eqn:H0; cbn [negb andb]; unfold_M;
       [by replace (Z.to_nat start) with 0%nat by lia
       |by rewrite Htrim by lia]).
Qed.

(** X16. A slice delete with the step left out whose normalized range is
    not empty and stops before the end of the list removes one element too
    many on the right: everything up to and including position [stop] is
    dropped from there.  On the left it keeps nothing when [start] is 0,
    and the first [max(start - 1, 1)] elements otherwise (nothing pending
    in the cache). *)
Theorem del_slice_before_end
    (st : List V) (index : slice) (start stop step n : Z) (forward : bool) :
  slice_step index = None →
  cache st = ∅ →
  fst (_normalize_slice index st) = Return (start, stop, step, forward, n) →
  start ≠ stop →
  stop < Redis.llen (remote st) →
  _del_slice pickle index st
  = (Return tt,
     set_remote
       ((if start =? 0 then []
         else take (Z.to_nat (Z.max (start - 1) 1)) (remote st))
        ++ drop (Z.to_nat (stop + 1)) (remote st)) st).
Proof.
  intros Hstep Hc Hnorm Hse Hstop.
  destruct (normalize_slice_forward index st Hstep)
    as (s0 & e0 & Heq & Hs & He).
  rewrite Heq in Hnorm. cbn in Hnorm. simplify_eq.
  pose proof (sync_helper_empty_cache Immediate st Hc) as Hsync.
  destruct st as [l wb c m]. cbn [remote cache] in *. subst c.
  unfold _del_slice, clear. rewrite decide_True by done.
  unfold_M. rewrite Heq. unfold_M.
  replace (start =? stop) with false by lia.
  replace (stop =? Redis.llen l) with false by lia. cbn [negb andb].
  rewrite !andb_false_r, andb_true_r.
  assert (Hright : Redis.range l (stop + 1) (-1)
                   = drop (Z.to_nat (stop + 1)) l)
    by (apply range_to_end; lia).
  assert (Hleft : Redis.range l 0 (Z.max (start - 2) 0)
                  = take (Z.to_nat (Z.max (start - 1) 1)) l).
  { rewrite range_nonneg by lia. f_equal. lia. }
  assert (Hne : take (Z.to_nat (Z.max (start - 1) 1)) l
                ++ drop (Z.to_nat (stop + 1)) l ≠ []).
  { destruct l as [|x l]; [unfold Redis.llen in *; cbn [length] in *; lia|].
    replace (Z.to_nat (Z.max (start - 1) 1))
      with (S (Z.to_nat (Z.max (start - 1) 1 - 1))) by lia.
    done. }
  unfold Redis.ltrim, Redis.lrange, Redis.delete.
  destruct wb; unfold_M; rewrite ?Hsync; unfold_M;
    (destruct (start =? 0) eqn:H0; cbn [negb]; unfold_M;
     [by rewrite Hright
     |rewrite Hleft, Hright; by rewrite rpush_nonempty]).
Qed.

(** *** Flushing the cache *)

Lemma lset_nonneg (l : list bytes) (i : Z) (x : bytes) :
  0 ≤ i < Redis.llen l → Redis.lset l i x = Some (<[Z.to_nat i := x]> l).
Proof.
  intros Hi. rewrite lset_in_range; rewrite resolve_normalize;
    by replace (0 <=? i) with true by lia.
Qed.

Lemma lindex_nonneg (l : list bytes) (i : Z) :
  0 ≤ i < Redis.llen l → Redis.lindex l i = l !! Z.to_nat i.
Proof.
  intros Hi. unfold Redis.lindex. rewrite resolve_normalize.
  replace (0 <=? i) with true by lia.
  by rewrite (proj2 (in_range_true _ _) Hi).
Qed.

(** Queued LSETs at distinct positions inside the list are all accepted,
    and leave each written position with its new value and every other
    position as it was. *)
Lemma lset_each_in_range mode (items : list (Z * V))
    (l : list bytes) (wb : bool) (c : gmap Z V) (m : bytes) :
  NoDup items.*1 →
  (∀ i v, (i, v) ∈ items → 0 ≤ i < Redis.llen l) →
  ∃ l',
    lset_each pickle mode items (mkList l wb c m)
    = (Return true, mkList l' wb c m) ∧
    length l' = length l ∧
    ∀ k : nat,
      l' !! k = match (list_to_map items : gmap Z V) !! Z.of_nat k with
                | Some v => Some (pickle v)
                | None => l !! k
                end.
Proof.
  revert l. induction items as [|[i v] items IH]; intros l Hnd Hin.
  - exists l. by split_and!.
  - apply NoDup_cons in Hnd as [Hi Hnd].
    assert (Hr : 0 ≤ i < Redis.llen l) by (eapply Hin; left).
    destruct (IH (<[Z.to_nat i := pickle v]> l) Hnd)
      as (l' & Heq & Hlen & Hlk).
    { intros i' v' Hin'. unfold Redis.llen. rewrite length_insert.
      eapply Hin. by right. }
    exists l'. split_and!.
    + cbn [lset_each]. unfold_M. rewrite lset_nonneg by done.
      destruct mode; unfold_M; rewrite Heq; by unfold_M.
    + by rewrite Hlen, length_insert.
    + intros k. rewrite Hlk. cbn [list_to_map foldr].
      destruct (decide (Z.of_nat k = i)) as [<-|Hne].
      * rewrite lookup_insert_eq.
        rewrite (not_elem_of_list_to_map_1 items) by done.
        rewrite Nat2Z.id. apply list_lookup_insert_eq.
        unfold Redis.llen in Hr. lia.
      * rewrite lookup_insert_ne by done.
        rewrite list_lookup_insert_ne by lia. done.
Qed.

(** X17. On a list whose cache is well-formed, [sync()] succeeds, empties
    the cache, and writes every cached value to its position of the remote
    list: afterwards each cached position holds the pickled cached value,
    every other position holds what it held before, and the length is
    unchanged. *)
Theorem sync_writes_cache (st : List V) :
  wf_cache st →
  ∃ l',
    sync pickle st = (Return tt, mkList l' (writeback st) ∅ (marker st)) ∧
    length l' = length (remote st) ∧
    ∀ k : nat,
      l' !! k = match cache st !! Z.of_nat k with
                | Some v => Some (pickle v)
                | None => remote st !! k
                end.
Proof.
  intros Hwf. destruct st as [l wb c m]. cbn [remote writeback cache marker].
  destruct (lset_each_in_range Buffered (map_to_list c) l wb c m)
    as (l' & Heq & Hlen & Hlk).
  - apply NoDup_fst_map_to_list.
  - intros i v Hin. apply elem_of_map_to_list in Hin. apply Hwf. by exists v.
  - rewrite list_to_map_to_list in Hlk. exists l'. split_and!; [|done..].
    unfold sync, _sync_helper. unfold_M. rewrite Heq. by unfold_M.
Qed.

(** *** Iteration *)

Lemma iter_spec (st : List V) :
  ∃ vs,
    __iter__ unpickle st = (Return vs, st) ∧
    length vs = length (remote st) ∧
    ∀ k : nat,
      vs !! k = (λ x, default (unpickle x) (cache st !! Z.of_nat k))
                <$> remote st !! k.
Proof.
  destruct st as [l wb c m]. cbn [remote cache].
  unfold __iter__, _data. unfold_M. unfold Redis.lrange.
  rewrite range_all. eexists. split_and!; [reflexivity|..].
  - by rewrite length_fmap, length_enumerate, length_fmap.
  - intros k. rewrite list_lookup_fmap, lookup_enumerate, list_lookup_fmap.
    by destruct (l !! k).
Qed.

(** X18. Iterating yields one value per stored element, in order: the
    cached value of the position when there is one, the unpickled stored
    value otherwise.  [len()] is the number of values iterated, and
    neither call changes the instance. *)
Theorem iter_yields_cache_aware_values (st : List V) :
  ∃ vs,
    __iter__ unpickle st = (Return vs, st) ∧
    __len__ st = (Return (Z.of_nat (length vs)), st) ∧
    ∀ k : nat,
      vs !! k = (λ x, default (unpickle x) (cache st !! Z.of_nat k))
                <$> remote st !! k.
Proof.
  destruct (iter_spec st) as (vs & Heq & Hlen & Hlk).
  exists vs. split_and!; [done| |done].
  unfold __len__. unfold_M. by rewrite Hlen.
Qed.

(** *** Searching *)

Lemma index_scan_spec (value : V) (a b : Z) (vs : list V) (s : Z) :
  match index_scan value a b (enumerate s vs) with
  | Some i =>
      ∃ k : nat,
        i = s + Z.of_nat k ∧ a ≤ i < b ∧ vs !! k = Some value ∧
        ∀ k' : nat, (k' < k)%nat → a ≤ s + Z.of_nat k' →
                    vs !! k' ≠ Some value
  | None =>
      ∀ k : nat, a ≤ s + Z.of_nat k < b → vs !! k ≠ Some value
  end.
Proof.
  revert s. induction vs as [|v vs IH]; intros s; [done|].
  cbn [enumerate index_scan]. specialize (IH (s + 1)).
  destruct (decide (v = value)) as [->|Hne];
    [destruct (s <? a) eqn:Hsa; [|destruct (b <=? s) eqn:Hbs]|].
  - destruct (index_scan _ _ _ _) as [i|].
    + destruct IH as (k & -> & Hab & Hk & Hmin).
      exists (S k). split_and!; [lia|lia|lia|exact Hk|].
      intros [|k'] Hlt Ha; [lia|]. apply Hmin; lia.
    + intros [|k] Hab; [lia|]. apply IH. lia.
  - intros k Hab. lia.
  - exists 0%nat. split_and!; [lia|lia|lia|done|]. intros k' Hlt. lia.
  - destruct (index_scan _ _ _ _) as [i|].
    + destruct IH as (k & -> & Hab & Hk & Hmin).
      exists (S k). split_and!; [lia|lia|lia|exact Hk|].
      intros [|k'] Hlt Ha; [cbn; congruence|]. apply Hmin; lia.
    + intros [|k] Hab; [cbn; congruence|]. apply IH. lia.
Qed.

(** X19. [index(value, start, stop)] scans the cache-aware contents from
    the head.  With [a] and [b] the absolute positions of [start or 0] and
    [stop or len], it returns the first position at or after [a] that
    holds the value, provided that position is before [b]; it raises
    [ValueError] when no position in [[a, b)] holds the value.  It never
    changes the instance. *)
Theorem index_finds_first
    (st : List V) (value : V) (start stop : option Z) :
  ∃ vs,
    __iter__ unpickle st = (Return vs, st) ∧
    ((∃ k : nat,
        index unpickle value start stop st = (Return (Z.of_nat k), st) ∧
        absolute (Redis.llen (remote st)) (py_or start 0) ≤ Z.of_nat k ∧
        Z.of_nat k
        < absolute (Redis.llen (remote st))
            (py_or stop (Redis.llen (remote st))) ∧
        vs !! k = Some value ∧
        ∀ k' : nat,
          (k' < k)%nat →
          absolute (Redis.llen (remote st)) (py_or start 0) ≤ Z.of_nat k' →
          vs !! k' ≠ Some value)
     ∨
     (index unpickle value start stop st = (Raise ValueError, st) ∧
      ∀ k : nat,
        absolute (Redis.llen (remote st)) (py_or start 0) ≤ Z.of_nat k
        < absolute (Redis.llen (remote st))
            (py_or stop (Redis.llen (remote st))) →
        vs !! k ≠ Some value)).
Proof.
  destruct st as [l wb c m]. cbn [remote].
  destruct (iter_spec (mkList l wb c m)) as (vs & Heq & _).
  exists vs. split; [done|].
  unfold index, _normalize_index. unfold_M. rewrite Heq. unfold_M.
  fold (absolute (Redis.llen l) (py_or start 0)).
  fold (absolute (Redis.llen l) (py_or stop (Redis.llen l))).
  pose proof (index_scan_spec value
                (absolute (Redis.llen l) (py_or start 0))
                (absolute (Redis.llen l) (py_or stop (Redis.llen l)))
                vs 0) as Hscan.
  destruct (index_scan _ _ _ _) as [i|].
  - left. destruct Hscan as (k & -> & Hab & Hk & Hmin).
    exists k. rewrite Z.add_0_l in *. split_and!; [done|lia|lia|done|].
    intros k' Hlt Ha. apply Hmin; [done|lia].
  - right. split; [done|]. intros k Hab. apply Hscan. lia.
Qed.

(** *** Removing a value *)

Lemma remove_first_1 (x : bytes) (l : list bytes) :
  ((x ∉ l) ∧ Redis.remove_first 1 x l = l) ∨
  (∃ l1 l2, l = l1 ++ x :: l2 ∧ (x ∉ l1) ∧
            Redis.remove_first 1 x l = l1 ++ l2).
Proof.
  induction l as [|y l IH].
  - left. split; [apply not_elem_of_nil|done].
  - cbn [Redis.remove_first]. destruct (decide (y = x)) as [->|Hne].
    + right. exists [], l. split_and!; [done|apply not_elem_of_nil|].
      apply remove_first_0.
    + destruct IH as [[Hnin Heq]|(l1 & l2 & -> & Hnin & Heq)].
      * left. split; [|by rewrite Heq].
        apply not_elem_of_cons. by split.
      * right. exists (y :: l1), l2. split_and!; [done| |by rewrite Heq].
        apply not_elem_of_cons. by split.
Qed.

(** X20. [remove(value)], with nothing pending in the cache, removes the
    first stored element equal to the pickled value and keeps every other
    element in order.  When no stored element equals it, the call returns
    normally and the instance is unchanged: no error is raised. *)
Theorem remove_first_occurrence (st : List V) (value : V) :
  cache st = ∅ →
  ((pickle value ∉ remote st) ∧
   remove pickle value st = (Return tt, st)) ∨
  (∃ l1 l2,
     remote st = l1 ++ pickle value :: l2 ∧
     (pickle value ∉ l1) ∧
     remove pickle value st = (Return tt, set_remote (l1 ++ l2) st)).
Proof.
  intros Hc.
  pose proof (sync_helper_empty_cache Buffered st Hc) as Hsync.
  destruct st as [l wb c m]. cbn [remote cache] in *. subst c.
  assert (Hrem : remove pickle value (mkList l wb ∅ m)
                 = (Return tt,
                    mkList (Redis.remove_first 1 (pickle value) l) wb ∅ m)).
  { unfold remove. unfold_M. destruct wb; rewrite ?Hsync; by unfold_M. }
  rewrite Hrem.
  destruct (remove_first_1 (pickle value) l)
    as [[Hnin ->]|(l1 & l2 & -> & Hnin & ->)].
  - by left.
  - right. by exists l1, l2.
Qed.

(** *** Reversing *)

(** The swap loop, started after [i0] swaps and run for [count] more:
    the positions within [i0 + count] of either end hold the mirrored
    element of the original list [l], the others are untouched. *)
Lemma reverse_loop_swaps
    (l : list bytes) (wb : bool) (c : gmap Z V) (m : bytes)
    (count i0 : nat) (l' : list bytes) :
  (2 * (i0 + count) ≤ length l)%nat →
  length l' = length l →
  (∀ j : nat, (j < length l)%nat →
     l' !! j = if decide (j < i0 ∨ length l - i0 ≤ j)%nat
               then l !! (length l - 1 - j)%nat else l !! j) →
  ∃ l'',
    reverse_loop (Redis.llen l) (seqZ (Z.of_nat i0) (Z.of_nat count))
      (mkList l' wb c m)
    = (Return tt, mkList l'' wb c m) ∧
    length l'' = length l ∧
    ∀ j : nat, (j < length l)%nat →
      l'' !! j = if decide (j < i0 + count ∨ length l - (i0 + count) ≤ j)%nat
                 then l !! (length l - 1 - j)%nat else l !! j.
Proof.
  revert i0 l'. induction count as [|count IH]; intros i0 l' Hle Hlen Hinv.
  - exists l'. rewrite seqZ_nil by lia. rewrite Nat.add_0_r.
    by split_and!.
  - rewrite seqZ_cons by lia.
    replace (Z.succ (Z.of_nat i0)) with (Z.of_nat (S i0)) by lia.
    replace (Z.pred (Z.of_nat (S count))) with (Z.of_nat count) by lia.
    destruct (lookup_lt_is_Some_2 l i0) as [a Ha]; [lia|].
    destruct (lookup_lt_is_Some_2 l (length l - 1 - i0)) as [b Hb]; [lia|].
    assert (Hgeta : Redis.lindex l' (Z.of_nat i0) = Some a).
    { rewrite lindex_nonneg by (unfold Redis.llen; lia).
      rewrite Nat2Z.id, Hinv by lia. by rewrite decide_False by lia. }
    assert (Hgetb : Redis.lindex l' (Redis.llen l - Z.of_nat i0 - 1)
                    = Some b).
    { unfold Redis.llen.
      replace (Z.of_nat (length l) - Z.of_nat i0 - 1)
        with (Z.of_nat (length l - 1 - i0)) by lia.
      rewrite lindex_nonneg by (unfold Redis.llen; lia).
      rewrite Nat2Z.id, Hinv by lia. by rewrite decide_False by lia. }
    assert (Hseta : Redis.lset l' (Z.of_nat i0) b
                    = Some (<[i0 := b]> l')).
    { rewrite lset_nonneg by (unfold Redis.llen; lia).
      by rewrite Nat2Z.id. }
    assert (Hsetb : Redis.lset (<[i0 := b]> l')
                      (Redis.llen l - Z.of_nat i0 - 1) a
                    = Some (<[(length l - 1 - i0)%nat := a]>
                              (<[i0 := b]> l'))).
    { unfold Redis.llen.
      replace (Z.of_nat (length l) - Z.of_nat i0 - 1)
        with (Z.of_nat (length l - 1 - i0)) by lia.
      rewrite lset_nonneg
        by (unfold Redis.llen; rewrite length_insert; lia).
      by rewrite Nat2Z.id. }
    destruct (IH (S i0) (<[(length l - 1 - i0)%nat := a]> (<[i0 := b]> l')))
      as (l'' & Heq & Hlen'' & Hinv'').
    + lia.
    + by rewrite !length_insert.
    + intros j Hj.
      destruct (decide (j = length l - 1 - i0)%nat) as [->|Hne1].
      { rewrite list_lookup_insert_eq by (rewrite length_insert; lia).
        rewrite decide_True by lia. rewrite <- Ha. f_equal. lia. }
      rewrite list_lookup_insert_ne by done.
      destruct (decide (j = i0)) as [->|Hne2].
      { rewrite list_lookup_insert_eq by lia.
        by rewrite decide_True by lia. }
      rewrite list_lookup_insert_ne by done. rewrite Hinv by done.
      destruct (decide (j < i0 ∨ length l - i0 ≤ j)%nat);
        [by rewrite decide_True by lia|by rewrite decide_False by lia].
    + exists l''. split_and!; [|done|].
      * cbn [reverse_loop]. unfold_M. rewrite Hgeta, Hgetb. unfold_M.
        rewrite Hseta. unfold_M. rewrite Hsetb. unfold_M. exact Heq.
      * intros j Hj. rewrite Hinv'' by done.
        replace (S i0 + count)%nat with (i0 + S count)%nat by lia. done.
Qed.

Lemma reverse_spec (st : List V) :
  reverse_ st = (Return tt, set_remote (reverse (remote st)) st).
Proof.
  destruct st as [l wb c m]. unfold reverse_. unfold_M.
  destruct (reverse_loop_swaps l wb c m (length l / 2) 0 l)
    as (l' & Heq & Hlen & Hinv).
  - pose proof (Nat.Div0.mul_div_le (length l) 2). lia.
  - done.
  - intros j Hj. by rewrite decide_False by lia.
  - change (Z.of_nat 0) with 0 in Heq.
    rewrite Nat2Z.inj_div in Heq. change (Z.of_nat 2) with 2 in Heq.
    fold (Redis.llen l) in Heq. rewrite Heq. do 2 f_equal.
    apply list_eq. intros j.
    destruct (decide (j < length l)%nat) as [Hj|Hj].
    + rewrite Hinv, reverse_lookup by done.
      pose proof (Nat.Div0.mul_div_le (length l) 2).
      pose proof (Nat.mul_succ_div_gt (length l) 2).
      destruct (decide _); f_equal; lia.
    + rewrite !lookup_ge_None_2; [done|rewrite length_reverse; lia|lia].
Qed.

(** X21. [reverse()] always succeeds and leaves the remote list reversed
    in place; the write-back flag and the cache are left as they were, so
    entries waiting in the cache keep their positions. *)
Theorem reverse_reverses_remote (st : List V) :
  reverse_ st = (Return tt, set_remote (reverse (remote st)) st).
Proof. apply reverse_spec. Qed.

(** *** The cache invariant *)

Lemma cache_ok_empty (l : list bytes) (wb : bool) (m : bytes) :
  cache_ok (V:=V) (mkList l wb ∅ m).
Proof.
  split; [|done]. intros i [v Hv]. cbn in Hv. by rewrite lookup_empty in Hv.
Qed.

Lemma append_cache_ok (st : List V) (value : V) :
  cache_ok st → cache_ok (snd (append pickle value st)).
Proof.
  intros [Hwf Hoff]. destruct st as [l wb c m]. unfold wf_cache in Hwf.
  cbn [remote writeback cache] in *.
  unfold append. unfold_M. cbn [Redis.rpush]. unfold_M.
  assert (Hlen : Redis.llen (l ++ [pickle value]) = Redis.llen l + 1).
  { unfold Redis.llen. rewrite length_app. cbn. lia. }
  destruct wb; unfold_M.
  - split; [|done]. intros i Hi. cbn [remote cache] in *.
    rewrite Hlen in *. apply lookup_insert_is_Some in Hi as [<-|[_ Hi]].
    + pose proof (llen_nonneg l). lia.
    + apply Hwf in Hi. lia.
  - rewrite Hoff by done. apply cache_ok_empty.
Qed.

Lemma extend_cache_ok (st : List V) (other : list V) :
  cache_ok st → cache_ok (snd (extend pickle other st)).
Proof.
  intros [Hwf Hoff]. destruct (decide (other = [])) as [->|Hne].
  { by destruct st. }
  destruct (extend_nonempty st other Hne) as (c' & -> & Hc').
  destruct st as [l wb c m]. unfold wf_cache in Hwf.
  cbn [remote writeback cache marker snd] in *.
  assert (Hlen : Redis.llen (l ++ (pickle <$> other))
                 = Redis.llen l + Z.of_nat (length other)).
  { unfold Redis.llen. rewrite length_app, length_fmap. lia. }
  split.
  - intros i Hi. cbn [remote cache] in *. rewrite Hlen, Hc' in *.
    pose proof (llen_nonneg l).
    destruct wb; cbn [andb] in Hi.
    + destruct (_ && _) eqn:Hin; [lia|]. apply Hwf in Hi. lia.
    + apply Hwf in Hi. lia.
  - cbn [writeback cache]. intros ->. apply map_eq. intros j.
    rewrite Hc'. cbn [andb]. by rewrite Hoff.
Qed.

Lemma setitem_cache_ok (st : List V) (index : Z) (value : V) :
  cache_ok st → cache_ok (snd (__setitem__ pickle index value st)).
Proof.
  intros [Hwf Hoff]. destruct st as [l wb c m]. unfold wf_cache in Hwf.
  cbn [remote writeback cache] in *.
  unfold __setitem__, _normalize_index.
  destruct (decide (0 ≤ Redis.resolve (Redis.llen l) index < Redis.llen l))
    as [Hr|Hr].
  - pose proof (lset_in_range l index (pickle value) Hr) as Hset.
    destruct wb; unfold_M; rewrite Hset; unfold_M; cbn [negb].
    + split; [|done]. intros i Hi. cbn [remote cache] in *.
      unfold Redis.llen in *. rewrite length_insert.
      apply lookup_insert_is_Some in Hi as [<-|[_ Hi]].
      * by rewrite <- resolve_normalize.
      * by apply Hwf.
    + rewrite Hoff by done. apply cache_ok_empty.
  - pose proof (lset_out_of_range l index (pickle value) Hr) as Hset.
    destruct wb; unfold_M; rewrite Hset; unfold_M; cbn [negb]; by split.
Qed.

Lemma getitem_cache_ok (st : List V) (index : Z) :
  cache_ok st → cache_ok (snd (__getitem__ unpickle index st)).
Proof.
  intros [Hwf Hoff].
  destruct (decide (0 ≤ absolute (Redis.llen (remote st)) index
                    < Redis.llen (remote st))) as [Hr|Hr].
  - destruct (getitem_accepts st index Hr) as (x & _ & ->).
    destruct st as [l wb c m]. unfold wf_cache in Hwf.
    cbn [remote writeback cache] in *. destruct wb; [|by split].
    split; [|done]. intros i Hi. cbn [remote cache snd set_cache] in *.
    apply lookup_insert_is_Some in Hi as [<-|[_ Hi]]; [done|by apply Hwf].
  - rewrite getitem_rejects by done. by split.
Qed.

Lemma sync_cache_ok (st : List V) : cache_ok (snd (sync pickle st)).
Proof.
  destruct (sync_buffered pickle st) as (o & l' & -> & _).
  apply cache_ok_empty.
Qed.

(** X22. The cache invariant (every cached key is a valid position of the
    remote list, and the cache is empty while write-back is off) is kept
    by [append], [extend], scalar [__setitem__], scalar [__getitem__],
    [sync] and [__enter__], whether the call returns or raises. *)
Theorem cache_ok_kept_by_element_methods
    (st : List V) (index : Z) (value : V) (other : list V) :
  cache_ok st →
  cache_ok (snd (append pickle value st)) ∧
  cache_ok (snd (extend pickle other st)) ∧
  cache_ok (snd (__setitem__ pickle index value st)) ∧
  cache_ok (snd (__getitem__ unpickle index st)) ∧
  cache_ok (snd (sync pickle st)) ∧
  cache_ok (snd (__enter__ st)).
Proof.
  intros Hok. split_and!.
  - by apply append_cache_ok.
  - by apply extend_cache_ok.
  - by apply setitem_cache_ok.
  - by apply getitem_cache_ok.
  - apply sync_cache_ok.
  - destruct Hok as [Hwf _]. by split.
Qed.

Lemma length_remove_first_1 (x : bytes) (l : list bytes) :
  x ∈ l → length (Redis.remove_first 1 x l) = (length l - 1)%nat.
Proof.
  intros Hin.
  destruct (remove_first_1 x l) as [[Hnin _]|(l1 & l2 & -> & _ & ->)];
    [done|].
  rewrite !length_app. cbn. lia.
Qed.

(** A middle pop in range always removes exactly one element, whether or
    not the marker occurs among the stored values. *)
Lemma pop_middle_accepts (st : List V) (index : Z) :
  0 ≤ absolute (Redis.llen (remote st)) index < Redis.llen (remote st) →
  ∃ v l',
    _pop_middle unpickle index st
    = (Return v,
       mkList l' (writeback st)
         (if writeback st
          then dict_comp
                 (drop_key (absolute (Redis.llen (remote st)) index))
                 (cache st)
          else cache st)
         (marker st)) ∧
    Redis.llen l' = Redis.llen (remote st) - 1.
Proof.
  intros Hp. destruct st as [l wb c m]. cbn [remote writeback cache marker] in *.
  set (p := absolute (Redis.llen l) index) in *.
  assert (Hres : Redis.resolve (Redis.llen l) index = p)
    by apply resolve_normalize.
  destruct (lindex_in_range l index) as (x & Hx & _); [by rewrite Hres|].
  assert (Hlen : Redis.llen (Redis.lrem (<[Z.to_nat p := m]> l) 1 m)
                 = Redis.llen l - 1).
  { unfold Redis.lrem, Redis.llen in *.
    cbn [Z.ltb Z.compare Z.to_nat Pos.to_nat Pos.iter_op Init.Nat.add].
    rewrite length_remove_first_1 by (apply list_elem_of_insert; lia).
    rewrite length_insert. lia. }
  unfold _pop_middle, _normalize_index. unfold_M.
  fold (absolute (Redis.llen l) index). fold p.
  replace ((p <? 0) || (Redis.llen l <=? p)) with false
    by (symmetry; apply orb_false_iff; lia).
  rewrite Hx. unfold_M.
  rewrite lset_in_range by (by rewrite Hres). rewrite Hres. unfold_M.
  destruct wb; unfold_M; by do 2 eexists.
Qed.

Lemma pop_cache_ok (st : List V) (index : Z) :
  cache_ok st → cache_ok (snd (pop unpickle index st)).
Proof.
  intros [Hwf Hoff]. unfold pop.
  destruct (index =? 0) eqn:H0; [|destruct (index =? -1) eqn:H1].
  - destruct st as [[|x l] wb c m]; [by split|].
    destruct (pop_left_cons x l wb c m) as (c' & -> & Hc').
    unfold wf_cache in Hwf. cbn [remote writeback cache snd] in *.
    destruct wb.
    + split; [|done]. intros i Hi. cbn [remote cache] in *.
      rewrite Hc' in Hi. destruct (i =? -1) eqn:Hi1.
      * by destruct Hi.
      * apply Hwf in Hi. unfold Redis.llen in *. cbn [length] in Hi. lia.
    + assert (c' = ∅) as ->; [|apply cache_ok_empty].
      apply map_eq. intros j. by rewrite Hc', Hoff.
  - destruct st as [l wb c m].
    destruct (decide (l = [])) as [->|Hne]; [by split|].
    destruct (exists_last Hne) as (l0 & x & ->).
    rewrite pop_right_snoc. unfold wf_cache in Hwf.
    cbn [remote writeback cache snd] in *. destruct wb.
    + split; [|done]. intros i Hi. cbn [remote cache] in *.
      apply lookup_delete_is_Some in Hi as [Hne' Hi]. apply Hwf in Hi.
      unfold Redis.llen in *. rewrite length_app in Hi. cbn in Hi. lia.
    + rewrite Hoff by done. apply cache_ok_empty.
  - destruct (decide (0 ≤ absolute (Redis.llen (remote st)) index
                      < Redis.llen (remote st))) as [Hr|Hr].
    + destruct (pop_middle_accepts st index Hr) as (v & l' & -> & Hlen).
      destruct st as [l wb c m]. unfold wf_cache in Hwf.
      cbn [remote writeback cache marker snd] in *. destruct wb.
      * split; [|done]. intros i Hi. cbn [remote cache] in *.
        rewrite lookup_dict_comp_drop_key in Hi. rewrite Hlen.
        destruct (i <? absolute (Redis.llen l) index) eqn:Hlt;
          apply Hwf in Hi; lia.
      * rewrite Hoff by done. apply cache_ok_empty.
    + rewrite pop_middle_rejects by done. by split.
Qed.

Lemma clear_cache_ok (st : List V) :
  cache_ok st → cache_ok (snd (clear st)).
Proof.
  intros [Hwf Hoff]. destruct st as [l wb c m].
  cbn [writeback cache] in *. unfold clear. unfold_M.
  destruct wb; unfold_M; [apply cache_ok_empty|].
  rewrite Hoff by done. apply cache_ok_empty.
Qed.

Lemma remove_cache_ok (st : List V) (value : V) :
  cache_ok st → cache_ok (snd (remove pickle value st)).
Proof.
  intros [Hwf Hoff].
  destruct (lset_each_buffered pickle (map_to_list (cache st)) st)
    as (ok & l' & Heq & _).
  destruct st as [l wb c m]. cbn [remote writeback cache marker] in *.
  unfold remove, _sync_helper. unfold_M. destruct wb; unfold_M.
  - rewrite Heq. unfold_M. destruct ok; apply cache_ok_empty.
  - rewrite Hoff by done. apply cache_ok_empty.
Qed.

Lemma reverse_cache_ok (st : List V) :
  cache_ok st → cache_ok (snd (reverse_ st)).
Proof.
  intros [Hwf Hoff]. rewrite reverse_spec. destruct st as [l wb c m].
  split; [|exact Hoff]. intros i Hi. specialize (Hwf i Hi).
  change (0 ≤ i < Z.of_nat (length (reverse l))).
  rewrite length_reverse. exact Hwf.
Qed.

(** X23. The cache invariant is kept by [pop] at any index (head, tail,
    middle, in range or not), by [clear], by [remove] and by [reverse],
    whether the call returns or raises. *)
Theorem cache_ok_kept_by_removal_methods
    (st : List V) (index : Z) (value : V) :
  cache_ok st →
  cache_ok (snd (pop unpickle index st)) ∧
  cache_ok (snd (clear st)) ∧
  cache_ok (snd (remove pickle value st)) ∧
  cache_ok (snd (reverse_ st)).
Proof.
  intros Hok. split_and!.
  - by apply pop_cache_ok.
  - by apply clear_cache_ok.
  - by apply remove_cache_ok.
  - by apply reverse_cache_ok.
Qed.

(** *** Methods that only touch the remote list *)

Lemma remote_only_ret {A} (a : A) : remote_only (V:=V) (ret a).
Proof. intros [l wb c m]. by exists l. Qed.

Lemma remote_only_raise {A} (e : exn) : remote_only (V:=V) (A:=A) (raise e).
Proof. intros [l wb c m]. by exists l. Qed.

Lemma remote_only_bind {A B} (m : M V A) (k : A → M V B) :
  remote_only m → (∀ a, remote_only (k a)) → remote_only (bind m k).
Proof.
  intros Hm Hk st. unfold bind. destruct (Hm st) as [l1 H1].
  destruct (m st) as [[a|e] st1]; cbn [snd] in *; subst st1.
  - destruct (Hk a (set_remote l1 st)) as [l2 ->]. by exists l2.
  - by exists l1.
Qed.

Lemma remote_only_lrange (first last : Z) :
  remote_only (V:=V) (Pipe.lrange first last).
Proof. intros [l wb c m]. by exists l. Qed.

Lemma remote_only_ltrim (first last : Z) :
  remote_only (V:=V) (Pipe.ltrim first last).
Proof. intros [l wb c m]. by eexists. Qed.

Lemma remote_only_delete : remote_only (V:=V) Pipe.delete.
Proof. intros [l wb c m]. by eexists. Qed.

Lemma remote_only_rpush (xs : list bytes) :
  remote_only (V:=V) (Pipe.rpush xs).
Proof.
  intros [l wb c m]. unfold Pipe.rpush. cbn [remote].
  destruct (Redis.rpush l xs) as [[n l']|]; by eexists.
Qed.

Ltac remote_only :=
  repeat first
    [ apply remote_only_ret
    | apply remote_only_raise
    | apply remote_only_lrange
    | apply remote_only_ltrim
    | apply remote_only_delete
    | apply remote_only_rpush
    | apply remote_only_bind; [|intros ?]
    | progress cbv beta zeta
    | match goal with
      | |- remote_only (match ?x with _ => _ end) => destruct x
      end ].

Lemma cache_ok_remote_only {A} (m : M V A) (l : list bytes) (wb : bool)
    (mk : bytes) :
  remote_only m → cache_ok (snd (m (mkList l wb ∅ mk))).
Proof. intros Hm. destruct (Hm (mkList l wb ∅ mk)) as [l' ->]. apply cache_ok_empty. Qed.

(** Under the invariant, the flush that opens a structural slice
    operation succeeds and leaves an empty cache; the rest of the
    operation runs on that state. *)
Lemma flush_before_slice (st : List V) :
  cache_ok st →
  ∃ l', ∀ B (k : M V B),
    (let* wb := get_writeback in
     do (if wb then do _sync_helper pickle Immediate in ret tt else ret tt) in
     k) st
    = k (mkList l' (writeback st) ∅ (marker st)).
Proof.
  intros [Hwf Hoff]. destruct st as [l wb c m].
  cbn [remote writeback cache marker] in *. destruct wb.
  - destruct (lset_each_in_range Immediate (map_to_list c) l true c m)
      as (l' & Heq & _).
    + apply NoDup_fst_map_to_list.
    + intros i v Hin. apply elem_of_map_to_list in Hin.
      apply Hwf. by exists v.
    + exists l'. intros B k. unfold _sync_helper. unfold_M.
      rewrite Heq. by unfold_M.
  - exists l. intros B k. unfold_M. by rewrite Hoff.
Qed.

Lemma del_slice_cache_ok (st : List V) (index : slice) :
  cache_ok st → cache_ok (snd (_del_slice pickle index st)).
Proof.
  intros Hok. unfold _del_slice, _transaction.
  destruct (decide (slice_step index = None)) as [Hs|Hs]; [|exact Hok].
  destruct (normalize_slice_forward index st Hs) as (start & stop & Heq & _).
  rewrite (bind_return _ _ _ _ _ Heq). cbv beta iota.
  destruct (start =? stop); [exact Hok|].
  destruct (flush_before_slice st Hok) as [l' Hfl]. rewrite Hfl.
  destruct ((start =? 0) && (stop =? Redis.llen (remote st))).
  - apply clear_cache_ok, cache_ok_empty.
  - apply cache_ok_remote_only. remote_only.
Qed.

Lemma set_slice_cache_ok (st : List V) (index : slice) (value : list V) :
  cache_ok st → cache_ok (snd (_set_slice pickle index value st)).
Proof.
  intros Hok. unfold _set_slice, _transaction.
  destruct (decide (slice_step index = None)) as [Hs|Hs]; [|exact Hok].
  destruct (normalize_slice_forward index st Hs) as (start & stop & Heq & _).
  rewrite (bind_return _ _ _ _ _ Heq). cbv beta iota.
  destruct (flush_before_slice st Hok) as [l' Hfl]. rewrite Hfl.
  apply cache_ok_remote_only. remote_only.
Qed.

Lemma get_slice_keeps_state (st : List V) (index : slice) :
  snd (_get_slice unpickle index st) = st.
Proof.
  unfold _get_slice, _transaction.
  destruct (decide (slice_step index = Some 0)) as [Hs|Hs].
  - unfold _normalize_slice. by rewrite decide_True.
  - destruct (normalize_slice_returns index st Hs) as [r Heq].
    rewrite (bind_return _ _ _ _ _ Heq).
    destruct r as [[[[start stop] step] forward] n]. cbv beta iota.
    by destruct (start =? stop).
Qed.

Lemma delitem_int_state (st : List V) (i : Z) :
  snd (__delitem__ pickle unpickle (Int i) st) = snd (pop unpickle i st).
Proof.
  unfold __delitem__, pop, bind.
  destruct (i =? 0);
    [by destruct (_pop_left unpickle st) as [[v|e] st']|].
  destruct (i =? -1);
    [by destruct (_pop_right unpickle st) as [[v|e] st']
    |by destruct (_pop_middle unpickle i st) as [[v|e] st'] ].
Qed.

(** X24. The cache invariant is kept by [__delitem__] with an integer and
    with a slice, by slice assignment and by a slice read, whether the
    call returns or raises; a slice read changes nothing at all. *)
Theorem cache_ok_kept_by_subscript_methods
    (st : List V) (index : subscript) (s : slice) (value : list V) :
  cache_ok st →
  cache_ok (snd (__delitem__ pickle unpickle index st)) ∧
  cache_ok (snd (_set_slice pickle s value st)) ∧
  snd (_get_slice unpickle s st) = st.
Proof.
  intros Hok. split_and!.
  - destruct index as [i|sl].
    + rewrite delitem_int_state. by apply pop_cache_ok.
    + by apply del_slice_cache_ok.
  - by apply set_slice_cache_ok.
  - apply get_slice_keeps_state.
Qed.

(** X25. [insert] keeps the cache invariant whenever the index is 0, -1,
    or any other index whose absolute position lies in [[0, n]]: the
    invariant can only break for an index outside that range. *)
Theorem insert_in_range_keeps_cache_ok
    (st : List V) (index : Z) (value : V) :
  cache_ok st →
  index = 0 ∨ index = -1 ∨
  0 ≤ absolute (Redis.llen (remote st)) index ≤ Redis.llen (remote st) →
  cache_ok (snd (insert pickle index value st)).
Proof.
  intros [Hwf Hoff] Hin. destruct st as [l wb c m]. unfold wf_cache in Hwf.
  cbn [remote writeback cache] in *. pose proof (llen_nonneg l) as Hn.
  unfold insert.
  destruct (index =? 0) eqn:H0; [|destruct (index =? -1) eqn:H1].
  - unfold_M. cbn [Redis.lpush]. unfold_M.
    destruct wb; unfold_M; [|rewrite Hoff by done; apply cache_ok_empty].
    split; [|done]. intros i Hi. cbn [remote cache] in *.
    change (Redis.llen (reverse [pickle value] ++ l))
      with (Redis.llen (pickle value :: l)).
    unfold Redis.llen in *. cbn [length].
    apply lookup_insert_is_Some in Hi as [<-|[_ Hi]]; [lia|].
    rewrite lookup_dict_comp_succ in Hi. apply Hwf in Hi. lia.
  - unfold_M. cbn [Redis.rpush]. unfold_M.
    destruct wb; unfold_M; [|rewrite Hoff by done; apply cache_ok_empty].
    split; [|done]. intros i Hi. cbn [remote cache] in *.
    assert (index = -1) as -> by lia. cbn [Z.leb Z.compare] in Hi.
    unfold Redis.llen in *. rewrite length_app in *. cbn [length] in *.
    apply lookup_insert_is_Some in Hi as [<-|[_ Hi]]; [lia|].
    apply Hwf in Hi. lia.
  - destruct Hin as [->|[->|Hp]]; [done..|].
    unfold _normalize_index. unfold_M.
    fold (absolute (Redis.llen l) index).
    set (p := absolute (Redis.llen l) index) in *.
    unfold Redis.lrange, Redis.ltrim. rewrite range_to_end by lia.
    assert (Hlen : Redis.llen l + 1
                   ≤ Redis.llen (Redis.range l 0 (p - 1)
                                 ++ pickle value :: drop (Z.to_nat p) l)).
    { unfold Redis.llen. rewrite length_app. cbn [length].
      rewrite length_drop. destruct (decide (p = 0)) as [->|Hp0].
      - cbn [Z.sub Z.opp Z.add Z.pos_sub]. rewrite range_all. lia.
      - rewrite range_nonneg by lia. rewrite length_take, length_drop.
        unfold Redis.llen in *. lia. }
    cbn [Redis.rpush]. unfold_M.
    destruct wb; unfold_M; [|rewrite Hoff by done; apply cache_ok_empty].
    split; [|done]. intros i Hi. cbn [remote cache] in *.
    apply lookup_insert_is_Some in Hi as [<-|[_ Hi]]; [lia|].
    rewrite lookup_dict_comp_shift_key in Hi.
    destruct (i <? p) eqn:Hlt; [apply Hwf in Hi; lia|].
    destruct (i =? p) eqn:Heq; [by destruct Hi|].
    apply Hwf in Hi. lia.
Qed.

Lemma filter_eq_length_0 (value : V) (vs : list V) :
  length (filter (λ v, v = value) vs) = 0%nat ↔ value ∉ vs.
Proof.
  split.
  - intros Hlen. apply length_zero_iff_nil in Hlen.
    by eapply filter_nil_not_elem_of.
  - intros Hnin. destruct (filter _ vs) as [|y ys] eqn:Hf; [done|].
    assert (Hy : y ∈ filter (λ v, v = value) vs) by (rewrite Hf; left).
    apply list_elem_of_filter in Hy as [-> Hy]. done.
Qed.

(** X26. [count] and [index] agree on absence: [count(value)] is 0
    exactly when [index(value)] raises [ValueError]. *)
Theorem count_zero_iff_index_raises (st : List V) (value : V) :
  fst (count unpickle value st) = Return 0
  ↔ fst (index unpickle value None None st) = Raise ValueError.
Proof.
  destruct st as [l wb c m].
  destruct (iter_spec (mkList l wb c m)) as (vs & Heq & Hlen & _).
  cbn [remote] in Hlen. pose proof (llen_nonneg l) as Hn.
  unfold count, index, _normalize_index. unfold_M. rewrite Heq. unfold_M.
  cbn [py_or Z.leb Z.compare].
  replace (0 <=? Redis.llen l) with true by lia.
  pose proof (index_scan_spec value 0 (Redis.llen l) vs 0) as Hscan.
  destruct (index_scan _ _ _ _) as [i|].
  - destruct Hscan as (k & _ & _ & Hk & _). split; [|done].
    intros [= Hc]. apply list_elem_of_lookup_2 in Hk.
    by apply (filter_eq_length_0 value vs) in Hk; [|lia].
  - split; [done|]. intros _.
    assert (Hz : length (filter (λ v, v = value) vs) = 0%nat);
      [|by rewrite Hz].
    apply filter_eq_length_0. intros Hin.
    apply list_elem_of_lookup_1 in Hin as [k Hk].
    apply (Hscan k); [|done]. apply lookup_lt_Some in Hk.
    unfold Redis.llen. lia.
Qed.

(** X27. [clear] always succeeds and leaves an empty remote list:
    [len()] is 0 and iterating yields nothing afterwards.  It empties the
    cache when write-back is on and leaves it alone otherwise. *)
Theorem clear_empties (st : List V) :
  ∃ st',
    clear st = (Return tt, st') ∧
    remote st' = [] ∧
    cache st' = (if writeback st then ∅ else cache st) ∧
    __len__ st' = (Return 0, st') ∧
    __iter__ unpickle st' = (Return [], st').
Proof.
  destruct st as [l wb c m]. unfold clear. unfold_M.
  destruct wb; unfold_M; eexists; by split_and!.
Qed.

End Behaviour.

(** ** The further properties on concrete lists *)

(** A list is determined by its lookups up to the length of the list it
    is compared with. *)
Lemma list_eq_lookups {A} (vs ws : list A) :
  (∀ k : nat, (k ≤ length ws)%nat → vs !! k = ws !! k) → vs = ws.
Proof.
  intros Hlk. apply list_eq. intros k.
  destruct (decide (k ≤ length ws)%nat) as [Hk|Hk]; [by apply Hlk|].
  assert (Hend : vs !! length ws = None).
  { rewrite Hlk by done. by apply lookup_ge_None_2. }
  apply lookup_ge_None_1 in Hend.
  rewrite !lookup_ge_None_2; [done|lia..].
Qed.

Lemma cached_list_ok : cache_ok cached_list.
Proof. split; [apply cached_list_wf|done]. Qed.

Lemma getitem_out_of_range_witness :
  __getitem__ Codec.unpickle_str 7 (str_list false ["p"; "q"; "r"])
  = (Raise IndexError, str_list false ["p"; "q"; "r"]).
Proof.
  apply getitem_out_of_range.
  - right. by vm_compute.
  - vm_compute. intros [_ H]. discriminate H.
Defined.

Lemma pop_middle_out_of_range_witness :
  _pop_middle Codec.unpickle_str (-7) cached_list
  = (Raise IndexError, cached_list).
Proof.
  apply pop_middle_out_of_range. vm_compute. intros [H _]. by apply H.
Defined.

Lemma getitem_in_range_witness :
  __getitem__ Codec.unpickle_str 1 cached_list
  = (Return "x", set_cache (<[1 := "x"]> (cache cached_list)) cached_list).
Proof.
  destruct (getitem_in_range Codec.unpickle_str cached_list 1)
    as (x & Hx & ->).
  - vm_compute. split; [discriminate|reflexivity].
  - vm_compute in Hx. injection Hx as <-. reflexivity.
Defined.

Lemma append_then_pop_witness :
  ∃ st1,
    append Codec.pickle_str "z" cached_list = (Return tt, st1) ∧
    pop Codec.unpickle_str (-1) st1 = (Return "z", cached_list).
Proof.
  apply append_then_pop; [reflexivity|apply cached_list_wf].
Defined.

Lemma extend_appends_witness :
  ∃ c',
    extend Codec.pickle_str ["y"; "z"] cached_list
    = (Return tt,
       mkList (Codec.pickle_str <$> ["x"; "x"; "x"; "y"; "z"]) true c'
         (marker cached_list)) ∧
    c' !! 2 = Some "c" ∧ c' !! 3 = Some "y" ∧ c' !! 4 = Some "z".
Proof.
  destruct (extend_appends Codec.pickle_str cached_list ["y"; "z"])
    as (c' & Heq & Hc'); [done|].
  exists c'. split; [exact Heq|]. rewrite !Hc'. by vm_compute.
Defined.

Lemma insert_places_value_witness :
  ∃ c',
    insert Codec.pickle_str 2 "b" (str_list false ["p"; "q"; "r"])
    = (Return tt,
       mkList (Codec.pickle_str <$> ["p"; "q"; "b"; "r"]) false c'
         (marker (str_list false ["p"; "q"; "r"]))).
Proof.
  destruct (insert_places_value Codec.pickle_str
              (str_list false ["p"; "q"; "r"]) 2 "b") as [c' Heq].
  - right. right. by vm_compute.
  - exists c'. exact Heq.
Defined.

Lemma insert_at_minus_length_duplicates_witness :
  ∃ c',
    insert Codec.pickle_str (-3) "b" (str_list false ["p"; "q"; "r"])
    = (Return tt,
       mkList
         (Codec.pickle_str <$> ["p"; "q"; "r"; "b"; "p"; "q"; "r"]) false c'
         (marker (str_list false ["p"; "q"; "r"]))).
Proof.
  destruct (insert_at_minus_length_duplicates Codec.pickle_str
              (str_list false ["p"; "q"; "r"]) "b") as [c' Heq].
  - by vm_compute.
  - exists c'. exact Heq.
Defined.

Lemma get_slice_unit_step_witness :
  _get_slice Codec.unpickle_str (Slice (Some 0) None None) cached_list
  = (Return ["a"; "x"; "c"], cached_list).
Proof.
  destruct (get_slice_unit_step Codec.unpickle_str cached_list
              (Slice (Some 0) None None) 0 3 1 3 true)
    as (vs & -> & Hlk); [reflexivity..|].
  do 2 f_equal. apply list_eq_lookups. intros k Hk. rewrite Hlk.
  destruct k as [|[|[|[|k]]]]; [reflexivity..|cbn in Hk; lia].
Defined.

Lemma get_slice_follows_normalization_witness :
  fst (_get_slice Codec.unpickle_int (Slice (Some 1) (Some 4) None)
         (int_list false [0; 1; 2; 3; 4])) = Return [1; 2; 3] ∧
  fst (_get_slice Codec.unpickle_int (Slice None None (Some (-1)))
         (int_list false [0; 1; 2; 3; 4])) = Return [4; 3; 2; 1; 0] ∧
  fst (_get_slice Codec.unpickle_int (Slice (Some 1) (Some 4) (Some 2))
         (int_list false [0; 1; 2; 3; 4])) = Return [1; 3].
Proof.
  split_and!.
  - destruct (get_slice_follows_normalization Codec.unpickle_int
                (int_list false [0; 1; 2; 3; 4])
                (Slice (Some 1) (Some 4) None))
      as (vs & -> & Hlk); [done|by vm_compute|].
    cbn [fst]. f_equal. apply list_eq_lookups. intros k Hk. rewrite Hlk.
    destruct k as [|[|[|[|k]]]]; [reflexivity..|cbn in Hk; lia].
  - destruct (get_slice_follows_normalization Codec.unpickle_int
                (int_list false [0; 1; 2; 3; 4])
                (Slice None None (Some (-1))))
      as (vs & -> & Hlk); [done|by vm_compute|].
    cbn [fst]. f_equal. apply list_eq_lookups. intros k Hk. rewrite Hlk.
    destruct k as [|[|[|[|[|[|k]]]]]]; [reflexivity..|cbn in Hk; lia].
  - destruct (get_slice_follows_normalization Codec.unpickle_int
                (int_list false [0; 1; 2; 3; 4])
                (Slice (Some 1) (Some 4) (Some 2)))
      as (vs & -> & Hlk); [done|by vm_compute|].
    cbn [fst]. f_equal. apply list_eq_lookups. intros k Hk. rewrite Hlk.
    destruct k as [|[|[|k]]]; [reflexivity..|cbn in Hk; lia].
Defined.

Lemma set_slice_replaces_range_witness :
  _set_slice Codec.pickle_int (Slice (Some 1) (Some 3) None) [7; 8; 9]
    (int_list false [0; 1; 2; 3; 4])
  = (Return tt, int_list false [0; 7; 8; 9; 3; 4]).
Proof.
  etransitivity.
  - apply set_slice_replaces_range
      with (start := 1) (stop := 3) (step := 1) (n := 5) (forward := true);
      [reflexivity|reflexivity|done|reflexivity].
  - reflexivity.
Defined.

Lemma del_slice_to_end_witness :
  _del_slice Codec.pickle_int (Slice (Some 2) None None)
    (int_list true [0; 1; 2; 3; 4])
  = (Return tt, int_list true [0; 1]).
Proof.
  etransitivity.
  - apply del_slice_to_end
      with (start := 2) (step := 1) (n := 5) (forward := true);
      reflexivity.
  - reflexivity.
Defined.

Lemma del_slice_before_end_witness :
  _del_slice Codec.pickle_int (Slice (Some 1) (Some 3) None)
    (int_list false [0; 1; 2; 3; 4])
  = (Return tt, int_list false [0; 4]).
Proof.
  etransitivity.
  - apply del_slice_before_end
      with (start := 1) (stop := 3) (step := 1) (n := 5) (forward := true);
      [reflexivity|reflexivity|reflexivity|discriminate|reflexivity].
  - reflexivity.
Defined.

Lemma sync_writes_cache_witness :
  ∃ l',
    sync Codec.pickle_str cached_list
    = (Return tt, mkList l' true ∅ (marker cached_list)) ∧
    l' = Codec.pickle_str <$> ["a"; "x"; "c"].
Proof.
  destruct (sync_writes_cache Codec.pickle_str cached_list cached_list_wf)
    as (l' & Heq & Hlen & Hlk).
  exists l'. split; [exact Heq|].
  pose proof (Hlk 0%nat) as H0. pose proof (Hlk 1%nat) as H1.
  pose proof (Hlk 2%nat) as H2. vm_compute in H0, H1, H2, Hlen.
  destruct l' as [|a [|b [|c [|d l']]]]; try discriminate Hlen.
  injection H0 as ->. injection H1 as ->. injection H2 as ->. reflexivity.
Defined.

Lemma remove_first_occurrence_witness :
  ((Codec.pickle_str "b" ∉ remote (str_list false ["a"; "b"; "c"; "b"])) ∧
   remove Codec.pickle_str "b" (str_list false ["a"; "b"; "c"; "b"])
   = (Return tt, str_list false ["a"; "b"; "c"; "b"])) ∨
  (∃ l1 l2,
     remote (str_list false ["a"; "b"; "c"; "b"])
     = l1 ++ Codec.pickle_str "b" :: l2 ∧
     (Codec.pickle_str "b" ∉ l1) ∧
     remove Codec.pickle_str "b" (str_list false ["a"; "b"; "c"; "b"])
     = (Return tt, set_remote (l1 ++ l2) (str_list false ["a"; "b"; "c"; "b"]))).
Proof. apply remove_first_occurrence. reflexivity. Defined.

Lemma cache_ok_kept_by_element_methods_witness :
  cache_ok (snd (append Codec.pickle_str "z" cached_list)) ∧
  cache_ok (snd (extend Codec.pickle_str ["y"; "z"] cached_list)) ∧
  cache_ok (snd (__setitem__ Codec.pickle_str 1 "z" cached_list)) ∧
  cache_ok (snd (__getitem__ Codec.unpickle_str 1 cached_list)) ∧
  cache_ok (snd (sync Codec.pickle_str cached_list)) ∧
  cache_ok (snd (__enter__ cached_list)).
Proof. apply cache_ok_kept_by_element_methods, cached_list_ok. Defined.

Lemma cache_ok_kept_by_removal_methods_witness :
  cache_ok (snd (pop Codec.unpickle_str 1 cached_list)) ∧
  cache_ok (snd (clear cached_list)) ∧
  cache_ok (snd (remove Codec.pickle_str "x" cached_list)) ∧
  cache_ok (snd (reverse_ cached_list)).
Proof. apply cache_ok_kept_by_removal_methods, cached_list_ok. Defined.

Lemma cache_ok_kept_by_subscript_methods_witness :
  cache_ok
    (snd (__delitem__ Codec.pickle_str Codec.unpickle_str
            (Slc (Slice (Some 1) None None)) cached_list)) ∧
  cache_ok
    (snd (_set_slice Codec.pickle_str (Slice (Some 1) (Some 2) None)
            ["y"; "z"] cached_list)) ∧
  snd (_get_slice Codec.unpickle_str (Slice (Some 1) (Some 2) None)
         cached_list)
  = cached_list.
Proof. apply cache_ok_kept_by_subscript_methods, cached_list_ok. Defined.

Lemma insert_in_range_keeps_cache_ok_witness :
  cache_ok (snd (insert Codec.pickle_str 1 "b" cached_list)).
Proof.
  apply insert_in_range_keeps_cache_ok; [apply cached_list_ok|].
  right. right. vm_compute. split; discriminate.
Defined.
